(** * The C-extension string bridge of TruffleRuby: [src/main/c/cext/string.c]

    A shallow embedding of the [rb_str_*] entry points of [string.c] and of
    the part of the managed runtime they call into, followed by the
    properties of construction, append, resize, expand, set-length and
    encoding conversion.

    The C functions are translated statement by statement into a state and
    exception monad over the runtime's object heap.  A [VALUE] is the index
    of a string object in that heap, so that "returns the same handle" is
    equality of [VALUE]s and in-place mutation is an update of the heap. *)

From Stdlib Require Import ZArith String.
From Stdlib Require Import Strings.Byte.
From stdpp Require Import base tactics option list.

Local Open Scope Z_scope.

(** ** C integers *)

Definition INT_MAX : Z := 2147483647.
Definition LONG_MAX : Z := 9223372036854775807.

(** [polyglot_as_i32]: the value as a 32-bit two's-complement [int]. *)
Definition polyglot_as_i32 (z : Z) : Z :=
  (z + 2147483648) mod 4294967296 - 2147483648.

(** [polyglot_as_i64]: the value as a 64-bit two's-complement integer. *)
Definition polyglot_as_i64 (z : Z) : Z :=
  (z + 9223372036854775808) mod 18446744073709551616 - 9223372036854775808.

(** The sum of two [long]s as the machine computes it: in 64-bit two's
    complement, so that a sum above [LONG_MAX] comes out negative. *)
Definition long_add (a b : Z) : Z := polyglot_as_i64 (a + b).

(** ** Encodings *)

(** The entries of the encoding registry; two [rb_encoding*] are equal when
    they are the same entry. *)
Inductive rb_encoding : Set :=
  | ASCII_8BIT
  | UTF_8
  | US_ASCII
  | ISO_8859_1
  | Shift_JIS
  | UTF_16LE.

Global Instance rb_encoding_eq_dec : EqDecision rb_encoding.
Proof. solve_decision. Defined.

(** [rb_enc_asciicompat]: the is-ASCII-compatible classification. *)
Definition rb_enc_asciicompat (e : rb_encoding) : bool :=
  match e with
  | UTF_16LE => false
  | _ => true
  end.

Definition rb_usascii_encoding : rb_encoding := US_ASCII.
Definition rb_utf8_encoding : rb_encoding := UTF_8.
Definition rb_ascii8bit_encoding : rb_encoding := ASCII_8BIT.

(** [ENC_CODERANGE_*]. *)
Inductive coderange : Set :=
  | ENC_CODERANGE_UNKNOWN
  | ENC_CODERANGE_7BIT
  | ENC_CODERANGE_VALID
  | ENC_CODERANGE_BROKEN.

Global Instance coderange_eq_dec : EqDecision coderange.
Proof. solve_decision. Defined.

(** ** Native memory *)

(** What a non-null [const char *] points at: the byte at each offset. *)
Definition memory : Type := nat → byte.

(** A [const char *] argument: [None] is [NULL]. *)
Definition cptr : Type := option memory.

(** The [n] bytes at a pointer. *)
Definition read_bytes (m : memory) (n : nat) : list byte := m <$> seq 0 n.

(** The [n] bytes a new string is made of: zeros for [NULL]. *)
Definition bytes_at (p : cptr) (n : nat) : list byte :=
  match p with
  | None => replicate n x00
  | Some m => read_bytes m n
  end.

(** The bytes of a list laid out at a pointer (zero after its end). *)
Definition memory_of (bs : list byte) : memory := λ i, default x00 (bs !! i).

Definition is_7bit (b : byte) : bool := (Byte.to_N b <? 128)%N.

(** ** Managed strings *)

(** A string object of the runtime, in its native (pointer-backed) form:
    [str_storage] is the allocated buffer, whose size is the capacity, and
    [str_len] the logical extent. *)
Record RString : Type := mkRString {
  str_storage : list byte;
  str_len : nat;
  str_enc : rb_encoding;
  str_coderange : coderange;
  str_tainted : bool
}.

Definition capacity (s : RString) : nat := length (str_storage s).

(** The logical content: what a materialised pointer lets one read. *)
Definition content (s : RString) : list byte := take (str_len s) (str_storage s).

(** The invariant of a string object: the extent lies within the storage,
    the byte size is an [int] (as [rb_str_len] reads it) and the size of
    the storage a [long] (as [rb_str_set_len] reads it). *)
Definition wf_string (s : RString) : Prop :=
  (str_len s ≤ capacity s)%nat
  ∧ Z.of_nat (str_len s) ≤ INT_MAX
  ∧ Z.of_nat (capacity s) ≤ LONG_MAX.

Definition with_storage (bs : list byte) (s : RString) : RString :=
  mkRString bs (str_len s) (str_enc s) (str_coderange s) (str_tainted s).
Definition with_len (n : nat) (s : RString) : RString :=
  mkRString (str_storage s) n (str_enc s) (str_coderange s) (str_tainted s).
Definition with_enc (e : rb_encoding) (s : RString) : RString :=
  mkRString (str_storage s) (str_len s) e (str_coderange s) (str_tainted s).
Definition with_coderange (c : coderange) (s : RString) : RString :=
  mkRString (str_storage s) (str_len s) (str_enc s) c (str_tainted s).
Definition with_tainted (t : bool) (s : RString) : RString :=
  mkRString (str_storage s) (str_len s) (str_enc s) (str_coderange s) t.

(** ** The runtime *)

Definition VALUE : Set := nat.

(** The process-wide state the bridge runs against: the object heap, the
    configured default encodings and the encoding engine. *)
Record world : Type := mkWorld {
  heap : list RString;
  default_internal : option rb_encoding;
  default_external : rb_encoding;
  locale_encoding : rb_encoding;
  filesystem_encoding : rb_encoding;
  (** [transcode from to ecflags bytes]: [None] on an invalid or undefined
      sequence that the flags do not ask to replace. *)
  transcode : rb_encoding → rb_encoding → Z → list byte → option (list byte);
  (** whether the bytes are a valid sequence of the encoding *)
  enc_valid : rb_encoding → list byte → bool
}.

Definition with_heap (h : list RString) (w : world) : world :=
  mkWorld h (default_internal w) (default_external w) (locale_encoding w)
    (filesystem_encoding w) (transcode w) (enc_valid w).

(** ** Exceptions *)

Inductive exc_class : Set :=
  | rb_eArgError
  | rb_eRuntimeError
  | rb_eTypeError
  | rb_eConverterError
  | native_fault.

(** A raised exception: its class, the format string given to [rb_raise] and
    the integer arguments of the format. *)
Record exception : Type := Exc {
  exc_cls : exc_class;
  exc_fmt : string;
  exc_args : list Z
}.

(** The error names of the specification. *)
Definition InvalidArgument (e : exception) : Prop := exc_cls e = rb_eArgError.
Definition BufferOverflow (requested cap : Z) (e : exception) : Prop :=
  exc_cls e = rb_eRuntimeError ∧ exc_args e = [requested; cap].

(** ** The monad of C-extension code *)

Inductive outcome (A : Type) : Type :=
  | Done (a : A)
  | Raised (e : exception).
Arguments Done {A} a.
Arguments Raised {A} e.

(** A computation runs in a world and ends in a value or in a raised
    exception, together with the world as it is at that point. *)
Definition cext (A : Type) : Type := world → outcome A * world.

Global Instance cext_ret : MRet cext := λ A a w, (Done a, w).
Global Instance cext_bind : MBind cext := λ A B k m w,
  match m w with
  | (Done a, w') => k a w'
  | (Raised e, w') => (Raised e, w')
  end.

(** [rb_raise]: does not return. *)
Definition rb_raise {A} (cls : exc_class) (fmt : string) (args : list Z) : cext A :=
  λ w, (Raised (Exc cls fmt args), w).

Definition get_world : cext world := λ w, (Done w, w).

(** Unwrapping a [VALUE] that is to be a string. *)
Definition get_string (v : VALUE) : cext RString := λ w,
  match heap w !! v with
  | Some s => (Done s, w)
  | None => (Raised (Exc rb_eTypeError "wrong argument type (expected String)" []), w)
  end.

Definition put_string (v : VALUE) (s : RString) : cext unit := λ w,
  (Done tt, with_heap (<[v := s]> (heap w)) w).

Definition modify_string (v : VALUE) (f : RString → RString) : cext unit :=
  s ← get_string v; put_string v (f s).

(** A new object: its [VALUE] is the next free index of the heap. *)
Definition alloc_string (s : RString) : cext VALUE := λ w,
  (Done (length (heap w)), with_heap (heap w ++ [s]) w).

Definition when_ (b : bool) (m : cext unit) : cext unit :=
  if b then m else mret tt.

(** ** The managed runtime behind [polyglot_invoke]

    [string.c] forwards to methods of the runtime ([RUBY_CEXT]) and to
    macros and functions of other files ([RSTRING_PTR], [rb_enc_get], ...).
    They are not part of [string.c]; the definitions of this section model
    them, from what the specification says of them and from what
    [string.c] itself says of them in its comments. *)

Module RUBY_CEXT.

(** Modelled from the spec: the runtime method [rb_str_new_nul], which is
    not in [string.c].  "[ptr == null] allocates [length] zero-initialized
    bytes"; "Resulting Handle's [coderange] starts [unknown]". *)
Definition rb_str_new_nul (length : Z) : cext VALUE :=
  alloc_string (mkRString (replicate (Z.to_nat length) x00) (Z.to_nat length)
                  ASCII_8BIT ENC_CODERANGE_UNKNOWN false).

(** Modelled from the spec: the runtime method [rb_str_new_native], which
    is not in [string.c].  "otherwise copies exactly [length] bytes";
    "Resulting Handle's [coderange] starts [unknown]". *)
Definition rb_str_new_native (string : memory) (length : Z) : cext VALUE :=
  alloc_string (mkRString (read_bytes string (Z.to_nat length)) (Z.to_nat length)
                  ASCII_8BIT ENC_CODERANGE_UNKNOWN false).

(** Modelled from the spec: the runtime method [rb_str_capacity], which is
    not in [string.c].  "[capacity] is the size of the underlying
    storage". *)
Definition rb_str_capacity (str : VALUE) : cext Z :=
  s ← get_string str; mret (Z.of_nat (capacity s)).

(** Modelled from the spec: the runtime method [rb_str_set_len], which is
    not in [string.c].  "does not touch bytes, only the logical extent".
    The range check is the caller's, in [string.c]. *)
Definition rb_str_set_len (str : VALUE) (len : Z) : cext VALUE :=
  modify_string str (with_len (Z.to_nat len));; mret str.

(** Modelled from the spec: the runtime method [rb_str_resize], which is
    not in [string.c].  It sets the length of the string, allocating where
    the storage is too small: [append] is to "grow storage to
    [oldLength + length] via [resize]", "shrinking never deallocates
    eagerly", and [rb_str_cat] and [rb_str_modify_expand] of [string.c],
    which both grow a string through it, say of it "Resizing the string
    will clear out the code range" and "resizes the native buffer".  A
    resize that refused a length above the capacity would make both of
    them fail on every string whose storage is full.  New bytes are zero.
    A negative length is refused the way [rb_str_new] and [rb_str_cat]
    refuse one; no caller in [string.c] passes one. *)
Definition rb_str_resize (str : VALUE) (len : Z) : cext VALUE :=
  s ← get_string str;
  when_ (len <? 0) (rb_raise rb_eArgError "negative string size (or size too big)" []);;
  let n := Z.to_nat len in
  put_string str
    (with_coderange ENC_CODERANGE_UNKNOWN
       (with_len n
          (with_storage (str_storage s ++ replicate (n - capacity s) x00) s)));;
  mret str.

(** Modelled from the spec: the runtime method [rb_str_conv_enc_opts],
    which is not in [string.c].  "performs a transcoding pass producing a
    new byte buffer; fails with [EncodingConversionError] on
    invalid/undefined sequences unless [flags] request replacement/skip
    behavior"; the options are forwarded opaquely. *)
Definition rb_str_conv_enc_opts (str : VALUE) (from to : rb_encoding)
    (ecflags : Z) (ecopts : option VALUE) : cext VALUE :=
  s ← get_string str;
  w ← get_world;
  match transcode w from to ecflags (content s) with
  | Some bs =>
      alloc_string (mkRString bs (length bs) to ENC_CODERANGE_UNKNOWN (str_tainted s))
  | None => rb_raise rb_eConverterError "invalid or undefined byte sequence" []
  end.

End RUBY_CEXT.

(** Modelled from the spec: the macro [RSTRING_PTR] and [memcpy] into it;
    the macro is not in [string.c].  [materialize] "returns a pointer to
    [length] contiguous, foreign-addressable bytes reflecting current
    content".  [memcpy (RSTRING_PTR (string) + offset, src, n)] writes the
    [n] bytes at [src] into the storage from [offset] on; a null source or a
    write past the end of the storage is a fault of the native code. *)
Definition memcpy_RSTRING_PTR (string : VALUE) (offset : Z) (src : cptr) (n : Z)
    : cext unit :=
  s ← get_string string;
  match src with
  | None => rb_raise native_fault "memcpy from NULL" []
  | Some m =>
      if (0 <=? offset) && (0 <=? n) && (offset + n <=? Z.of_nat (capacity s)) then
        let off := Z.to_nat offset in
        let len := Z.to_nat n in
        put_string string
          (with_storage (take off (str_storage s) ++ read_bytes m len
                           ++ drop (off + len) (str_storage s)) s)
      else rb_raise native_fault "memcpy past the end of the buffer" []
  end.

(** Modelled from the spec: reading through [RSTRING_PTR], whose macro is
    not in [string.c]: the [length] bytes of the current content. *)
Definition materialize (string : VALUE) : cext (list byte) :=
  s ← get_string string; mret (content s).

(** Modelled from the spec: the macro [ENC_CODERANGE_CLEAR], which is not in
    [string.c]: "clear [coderange] to [unknown]". *)
Definition ENC_CODERANGE_CLEAR (str : VALUE) : cext unit :=
  modify_string str (with_coderange ENC_CODERANGE_UNKNOWN).

(** Modelled from the spec: the macro [OBJ_TAINT], which is not in
    [string.c]: "set [tainted = true]". *)
Definition OBJ_TAINT (str : VALUE) : cext unit :=
  modify_string str (with_tainted true).

(** *** Encoding functions of [ruby/encoding.h] *)

(** The index of an entry in the registry. *)
Definition rb_enc_to_index (e : rb_encoding) : Z :=
  match e with
  | ASCII_8BIT => 0
  | UTF_8 => 1
  | US_ASCII => 2
  | ISO_8859_1 => 3
  | Shift_JIS => 4
  | UTF_16LE => 5
  end.

Definition rb_enc_from_index (i : Z) : option rb_encoding :=
  match i with
  | 0 => Some ASCII_8BIT
  | 1 => Some UTF_8
  | 2 => Some US_ASCII
  | 3 => Some ISO_8859_1
  | 4 => Some Shift_JIS
  | 5 => Some UTF_16LE
  | _ => None
  end.

Definition rb_ascii8bit_encindex : Z := rb_enc_to_index rb_ascii8bit_encoding.

Definition rb_default_internal_encoding : cext (option rb_encoding) :=
  w ← get_world; mret (default_internal w).
Definition rb_default_external_encoding : cext rb_encoding :=
  w ← get_world; mret (default_external w).
Definition rb_locale_encoding : cext rb_encoding :=
  w ← get_world; mret (locale_encoding w).
Definition rb_filesystem_encoding : cext rb_encoding :=
  w ← get_world; mret (filesystem_encoding w).

(** Modelled from the spec: [rb_enc_get], which is not in [string.c]: the
    handle's [encoding] attribute. *)
Definition rb_enc_get (str : VALUE) : cext rb_encoding :=
  s ← get_string str; mret (str_enc s).

(** Modelled from the spec: [rb_enc_associate], which is not in
    [string.c]: "associate the external encoding".  The cached coderange,
    which classifies the bytes under the former encoding, is dropped. *)
Definition rb_enc_associate (str : VALUE) (enc : rb_encoding) : cext unit :=
  modify_string str (λ s, with_coderange ENC_CODERANGE_UNKNOWN (with_enc enc s)).

(** Modelled from the spec: [rb_enc_associate_index], which is not in
    [string.c]: [rb_enc_associate] with the registry entry of the index. *)
Definition rb_enc_associate_index (str : VALUE) (idx : Z) : cext unit :=
  match rb_enc_from_index idx with
  | Some enc => rb_enc_associate str enc
  | None => rb_raise rb_eArgError "unknown encoding index" [idx]
  end.

(** The classification of a byte sequence under an encoding. *)
Definition scan_coderange (w : world) (enc : rb_encoding) (bs : list byte) : coderange :=
  if rb_enc_asciicompat enc && forallb is_7bit bs then ENC_CODERANGE_7BIT
  else if enc_valid w enc bs then ENC_CODERANGE_VALID
  else ENC_CODERANGE_BROKEN.

(** Modelled from the spec: [rb_enc_str_coderange], which is not in
    [string.c]: "Coderange is a cache, not a source of truth: it may be
    [unknown] at any time (forcing re-scan by the encoding engine)". *)
Definition rb_enc_str_coderange (str : VALUE) : cext coderange :=
  s ← get_string str;
  match str_coderange s with
  | ENC_CODERANGE_UNKNOWN =>
      w ← get_world;
      let cr := scan_coderange w (str_enc s) (content s) in
      put_string str (with_coderange cr s);; mret cr
  | cr => mret cr
  end.

(** ** [string.c] *)

(** [rb_str_len], lines 52-54: the byte size, as an [int]. *)
Definition rb_str_len (string : VALUE) : cext Z :=
  s ← get_string string; mret (polyglot_as_i32 (Z.of_nat (str_len s))).

(** The macro [RSTRING_LEN] of the headers: [rb_str_len]. *)
Definition RSTRING_LEN (string : VALUE) : cext Z := rb_str_len string.

(** [rb_str_capacity], lines 356-358. *)
Definition rb_str_capacity (str : VALUE) : cext Z :=
  c ← RUBY_CEXT.rb_str_capacity str; mret (polyglot_as_i64 c).

(** [rb_str_new], lines 56-66. *)
Definition rb_str_new (string : cptr) (length : Z) : cext VALUE :=
  when_ (length <? 0)
    (rb_raise rb_eArgError "negative string size (or size too big)" []);;
  match string with
  | None => RUBY_CEXT.rb_str_new_nul length
  | Some p => RUBY_CEXT.rb_str_new_native p length
  end.

(** [rb_tainted_str_new], lines 68-73. *)
Definition rb_tainted_str_new (ptr : cptr) (len : Z) : cext VALUE :=
  str ← rb_str_new ptr len;
  OBJ_TAINT str;;
  mret str.

(** [rb_str_resize], lines 158-160. *)
Definition rb_str_resize (string : VALUE) (length : Z) : cext VALUE :=
  RUBY_CEXT.rb_str_resize string length.

(** [rb_str_set_len], lines 142-148. *)
Definition rb_str_set_len (string : VALUE) (length : Z) : cext unit :=
  capacity ← rb_str_capacity string;
  when_ ((length >? capacity) || (length <? 0))
    (rb_raise rb_eRuntimeError "probable buffer overflow: %ld for %ld"
       [length; capacity]);;
  RUBY_CEXT.rb_str_set_len string length;;
  mret tt.

(** [rb_str_cat], lines 100-113.  The sum [old_length + length] of line 108
    is the sum of an [int] and a [long], a [long]: nothing guards it, and
    above [LONG_MAX] it wraps to a negative size. *)
Definition rb_str_cat (string : VALUE) (to_concat : cptr) (length : Z) : cext VALUE :=
  if length =? 0 then mret string
  else
    when_ (length <? 0)
      (rb_raise rb_eArgError "negative string size (or size too big)" []);;
    old_length ← RSTRING_LEN string;
    rb_str_resize string (long_add old_length length);;
    memcpy_RSTRING_PTR string old_length to_concat length;;
    mret string.

(** [rb_str_buf_cat], lines 178-180. *)
Definition rb_str_buf_cat (string : VALUE) (to_concat : cptr) (length : Z) : cext VALUE :=
  rb_str_cat string to_concat length.

(** [rb_str_buf_new], lines 128-132. *)
Definition rb_str_buf_new (capacity : Z) : cext VALUE :=
  str ← rb_str_new None capacity;
  rb_str_set_len str 0;;
  mret str.

(** [rb_str_modify], lines 166-168. *)
Definition rb_str_modify (string : VALUE) : cext unit :=
  ENC_CODERANGE_CLEAR string.

(** [rb_str_modify_expand], lines 328-346. *)
Definition rb_str_modify_expand (str : VALUE) (expand : Z) : cext unit :=
  len ← RSTRING_LEN str;
  when_ (expand <? 0)
    (rb_raise rb_eArgError "negative expanding string size" []);;
  when_ (expand >? INT_MAX - len)
    (rb_raise rb_eArgError "string size too big" []);;
  when_ (expand >? 0)
    (rb_str_resize str (len + expand);;
     rb_str_set_len str len);;
  ENC_CODERANGE_CLEAR str.

(** [rb_str_conv_enc_opts], lines 186-191; a null [rb_encoding *] is
    [None], [Qnil] for the options is [None]. *)
Definition rb_str_conv_enc_opts (str : VALUE) (from to : option rb_encoding)
    (ecflags : Z) (ecopts : option VALUE) : cext VALUE :=
  match to with
  | None => mret str
  | Some to =>
      from ← match from with
             | None => rb_enc_get str
             | Some from => mret from
             end;
      if decide (from = to) then mret str
      else RUBY_CEXT.rb_str_conv_enc_opts str from to ecflags ecopts
  end.

(** [rb_str_conv_enc], lines 182-184. *)
Definition rb_str_conv_enc (string : VALUE) (from to : option rb_encoding) : cext VALUE :=
  rb_str_conv_enc_opts string from to 0 None.

(** Modelled from the spec: [rb_enc_str_new], which is not in [string.c]:
    [newFromBytes (ptr, length, encoding)], a new string of the bytes with
    the encoding, the way [rb_usascii_str_new] (lines 297-299) makes one
    with [force_encoding]. *)
Definition rb_enc_str_new (ptr : cptr) (len : Z) (enc : rb_encoding) : cext VALUE :=
  str ← rb_str_new ptr len;
  rb_enc_associate str enc;;
  mret str.

(** [rb_tainted_str_new_with_enc], lines 193-198. *)
Definition rb_tainted_str_new_with_enc (ptr : cptr) (len : Z) (enc : rb_encoding)
    : cext VALUE :=
  str ← rb_enc_str_new ptr len enc;
  OBJ_TAINT str;;
  mret str.

(** [rb_external_str_with_enc], lines 207-215.  The [&&] of the condition
    evaluates [rb_enc_str_coderange] only for US-ASCII. *)
Definition rb_external_str_with_enc (str : VALUE) (eenc : rb_encoding) : cext VALUE :=
  binary ← (if decide (eenc = rb_usascii_encoding) then
              cr ← rb_enc_str_coderange str;
              mret (negb (bool_decide (cr = ENC_CODERANGE_7BIT)))
            else mret false);
  if binary : bool then
    rb_enc_associate_index str rb_ascii8bit_encindex;;
    mret str
  else
    rb_enc_associate str eenc;;
    to ← rb_default_internal_encoding;
    rb_str_conv_enc str (Some eenc) to.

(** [rb_external_str_new_with_enc], lines 200-205. *)
Definition rb_external_str_new_with_enc (ptr : cptr) (len : Z) (eenc : rb_encoding)
    : cext VALUE :=
  str ← rb_tainted_str_new_with_enc ptr len eenc;
  rb_external_str_with_enc str eenc.

(** [rb_external_str_new], lines 217-219. *)
Definition rb_external_str_new (string : cptr) (len : Z) : cext VALUE :=
  eenc ← rb_default_external_encoding;
  rb_external_str_new_with_enc string len eenc.

(** [rb_locale_str_new], lines 225-227. *)
Definition rb_locale_str_new (string : cptr) (len : Z) : cext VALUE :=
  eenc ← rb_locale_encoding;
  rb_external_str_new_with_enc string len eenc.

(** [rb_filesystem_str_new], lines 233-235. *)
Definition rb_filesystem_str_new (string : cptr) (len : Z) : cext VALUE :=
  eenc ← rb_filesystem_encoding;
  rb_external_str_new_with_enc string len eenc.

(** ** Reading the attributes of a handle in a world *)

Definition length_of (w : world) (h : VALUE) : option nat := str_len <$> heap w !! h.
Definition capacity_of (w : world) (h : VALUE) : option nat := capacity <$> heap w !! h.
Definition content_of (w : world) (h : VALUE) : option (list byte) := content <$> heap w !! h.
Definition coderange_of (w : world) (h : VALUE) : option coderange :=
  str_coderange <$> heap w !! h.
Definition encoding_of (w : world) (h : VALUE) : option rb_encoding :=
  str_enc <$> heap w !! h.

(** A small world to run the functions in, with no string yet: the given
    encoding for everything outside, the given internal encoding, a
    transcoder that only passes 7-bit text through. *)
Definition world0 (ext : rb_encoding) (int : option rb_encoding) : world :=
  mkWorld [] int ext ext ext
    (λ _ _ _ bs, if forallb is_7bit bs then Some bs else None)
    (λ e bs, match e with ASCII_8BIT | ISO_8859_1 => true | _ => forallb is_7bit bs end).

(** The world in which handle 0 is the two-byte string "ab", as
    [rb_str_new] makes it, and the one in which handle 0 is an empty buffer
    of capacity 4, as [rb_str_buf_new] makes it. *)
Definition world_ab : world :=
  with_heap [mkRString [x61; x62] 2 ASCII_8BIT ENC_CODERANGE_UNKNOWN false]
    (world0 UTF_8 None).
Definition world_buf4 : world :=
  with_heap [mkRString [x00; x00; x00; x00] 0 ASCII_8BIT ENC_CODERANGE_UNKNOWN false]
    (world0 UTF_8 None).

(** ** C strings *)

(** [strlen]: the offset of the first NUL byte at the pointer.  The search
    is bounded by [fuel], the number of bytes it may look at; [None] when
    no NUL is among them. *)
Fixpoint strlen_from (fuel : nat) (str : memory) (i : nat) : option nat :=
  match fuel with
  | O => None
  | S fuel' =>
      if Byte.eqb (str i) x00 then Some i else strlen_from fuel' str (S i)
  end.

Definition strlen (fuel : nat) (str : memory) : option nat :=
  strlen_from fuel str 0.

(** [ruby_strdup], lines 6-14: the block that [xmalloc] returns, filled by
    [memcpy] with the [strlen (str) + 1] bytes at [str]. *)
Definition ruby_strdup (fuel : nat) (str : memory) : option (list byte) :=
  match strlen fuel str with
  | Some n => let len := S n in Some (read_bytes str len)
  | None => None
  end.

(** ** Methods of the runtime's strings, called through [RUBY_INVOKE] *)

Module String_methods.

(** Modelled from the spec: [String#force_encoding], which is not in
    [string.c]: the string itself, tagged with the encoding; its bytes are
    not touched and the cached coderange is dropped. *)
Definition force_encoding (self : VALUE) (enc : rb_encoding) : cext VALUE :=
  modify_string self (λ s, with_coderange ENC_CODERANGE_UNKNOWN (with_enc enc s));;
  mret self.

(** Modelled from the spec: [String#byteslice], which is not in
    [string.c]: "byte-exact slice, not encoding-aware", a "new independent
    Handle sharing the same encoding tag".  As in Ruby, a negative start
    counts from the end, and the result is [nil] ([None]) for a negative
    length and for a start outside the string. *)
Definition byteslice (self : VALUE) (beg len : Z) : cext (option VALUE) :=
  s ← get_string self;
  let size := Z.of_nat (str_len s) in
  let beg := if beg <? 0 then beg + size else beg in
  if (len <? 0) || (beg <? 0) || (beg >? size) then mret None
  else
    let bs := take (Z.to_nat len) (drop (Z.to_nat beg) (content s)) in
    v ← alloc_string (mkRString bs (length bs) (str_enc s)
                        ENC_CODERANGE_UNKNOWN (str_tainted s));
    mret (Some v).

(** Modelled from the spec: [String#replace], which is not in [string.c]:
    "replaces entire logical content and encoding with another Handle's
    content; independent afterward (no aliasing)".  It returns the
    receiver; [nil] is not a string. *)
Definition replace (self : VALUE) (other : option VALUE) : cext VALUE :=
  match other with
  | None => rb_raise rb_eTypeError "no implicit conversion of nil into String" []
  | Some other =>
      s ← get_string self;
      o ← get_string other;
      put_string self (mkRString (content o) (length (content o)) (str_enc o)
                         ENC_CODERANGE_UNKNOWN
                         (str_tainted s || str_tainted o));;
      mret self
  end.

End String_methods.

(** The macro [STR_ENC_GET] of the headers: the encoding of the string. *)
Definition STR_ENC_GET (string : VALUE) : cext rb_encoding := rb_enc_get string.

(** ** [string.c], continued *)

(** [rb_str_new_cstr], lines 75-79. *)
Definition rb_str_new_cstr (fuel : nat) (string : memory) : option (cext VALUE) :=
  len ← strlen fuel string;
  Some (rb_str_new (Some string) (Z.of_nat len)).

(** [rb_tainted_str_new_cstr], lines 89-94. *)
Definition rb_tainted_str_new_cstr (fuel : nat) (ptr : memory) : option (cext VALUE) :=
  new ← rb_str_new_cstr fuel ptr;
  Some (str ← new; OBJ_TAINT str;; mret str).

(** [rb_str_buf_new_cstr], lines 170-172. *)
Definition rb_str_buf_new_cstr (fuel : nat) (string : memory) : option (cext VALUE) :=
  rb_str_new_cstr fuel string.

(** [rb_str_cat_cstr], lines 116-118. *)
Definition rb_str_cat_cstr (fuel : nat) (string : VALUE) (to_concat : memory)
    : option (cext VALUE) :=
  len ← strlen fuel to_concat;
  Some (rb_str_cat string (Some to_concat) (Z.of_nat len)).

(** [rb_external_str_new_cstr], lines 221-223. *)
Definition rb_external_str_new_cstr (fuel : nat) (string : memory)
    : option (cext VALUE) :=
  len ← strlen fuel string;
  Some (eenc ← rb_default_external_encoding;
        rb_external_str_new_with_enc (Some string) (Z.of_nat len) eenc).

(** [rb_str_export], lines 241-243. *)
Definition rb_str_export (string : VALUE) : cext VALUE :=
  from ← STR_ENC_GET string;
  to ← rb_default_external_encoding;
  rb_str_conv_enc string (Some from) (Some to).

(** [rb_str_export_locale], lines 245-247. *)
Definition rb_str_export_locale (string : VALUE) : cext VALUE :=
  from ← STR_ENC_GET string;
  to ← rb_locale_encoding;
  rb_str_conv_enc string (Some from) (Some to).

(** [rb_str_export_to_enc], lines 249-251; a null [enc] is [None]. *)
Definition rb_str_export_to_enc (string : VALUE) (enc : option rb_encoding)
    : cext VALUE :=
  from ← STR_ENC_GET string;
  rb_str_conv_enc string (Some from) enc.

(** [rb_str_subseq], lines 265-267; the result may be [nil]. *)
Definition rb_str_subseq (string : VALUE) (beg len : Z) : cext (option VALUE) :=
  String_methods.byteslice string beg len.

(** [rb_str_replace], lines 281-283; [by] may be [nil]. *)
Definition rb_str_replace (str : VALUE) (by_ : option VALUE) : cext VALUE :=
  String_methods.replace str by_.

(** [rb_str_drop_bytes], lines 348-354. *)
Definition rb_str_drop_bytes (str : VALUE) (len : Z) : cext VALUE :=
  olen ← RSTRING_LEN str;
  let len := if len >? olen then olen else len in
  sub ← rb_str_subseq str len (olen - len);
  rb_str_replace str sub.

(** [rb_usascii_str_new], lines 297-299. *)
Definition rb_usascii_str_new (ptr : cptr) (len : Z) : cext VALUE :=
  str ← rb_str_new ptr len;
  String_methods.force_encoding str rb_usascii_encoding.

(** [rb_utf8_str_new], lines 314-316. *)
Definition rb_utf8_str_new (ptr : cptr) (len : Z) : cext VALUE :=
  rb_enc_str_new ptr len rb_utf8_encoding.

(** [rb_utf8_str_new_cstr], lines 319-322. *)
Definition rb_utf8_str_new_cstr (fuel : nat) (ptr : memory) : option (cext VALUE) :=
  len ← strlen fuel ptr;
  Some (rb_utf8_str_new (Some ptr) (Z.of_nat len)).

(** [rb_utf8_str_new_static], lines 324-326. *)
Definition rb_utf8_str_new_static (ptr : cptr) (len : Z) : cext VALUE :=
  rb_utf8_str_new ptr len.

(** The first NUL byte at [str] is at offset [n]. *)
Definition first_nul (str : memory) (n : nat) : Prop :=
  str n = x00 ∧ ∀ i, (i < n)%nat → str i ≠ x00.

Definition tainted_of (w : world) (h : VALUE) : option bool :=
  str_tainted <$> heap w !! h.

(** * Properties *)

(** ** Running the primitives *)

Lemma polyglot_as_i32_small z : - 2147483648 ≤ z ≤ INT_MAX → polyglot_as_i32 z = z.
Proof.
  unfold polyglot_as_i32, INT_MAX. intros Hz.
  rewrite Z.mod_small by lia. lia.
Qed.

Lemma polyglot_as_i64_small z : 0 ≤ z ≤ LONG_MAX → polyglot_as_i64 z = z.
Proof.
  unfold polyglot_as_i64, LONG_MAX. intros Hz.
  rewrite Z.mod_small by lia. lia.
Qed.

Lemma long_add_small a b : 0 ≤ a + b ≤ LONG_MAX → long_add a b = a + b.
Proof. apply polyglot_as_i64_small. Qed.

Lemma length_read_bytes m n : length (read_bytes m n) = n.
Proof. unfold read_bytes. by rewrite length_fmap, length_seq. Qed.

Lemma length_bytes_at p n : length (bytes_at p n) = n.
Proof. destruct p; simpl; [apply length_read_bytes | apply length_replicate]. Qed.

Section run.
Context (w : world) (h : VALUE) (s : RString).
Hypothesis Hh : heap w !! h = Some s.

Lemma get_string_run : get_string h w = (Done s, w).
Proof. unfold get_string. by rewrite Hh. Qed.

Lemma put_string_lookup s' :
  heap (with_heap (<[h := s']> (heap w)) w) !! h = Some s'.
Proof. simpl. apply list_lookup_insert_eq. by eapply lookup_lt_Some. Qed.

Lemma put_string_frame s' h' :
  h' ≠ h → heap (with_heap (<[h := s']> (heap w)) w) !! h' = heap w !! h'.
Proof. intros Hne. simpl. by apply list_lookup_insert_ne. Qed.

Lemma modify_string_run f :
  modify_string h f w = (Done tt, with_heap (<[h := f s]> (heap w)) w).
Proof. unfold modify_string, mbind, cext_bind. by rewrite get_string_run. Qed.

Lemma RSTRING_LEN_run :
  Z.of_nat (str_len s) ≤ INT_MAX →
  RSTRING_LEN h w = (Done (Z.of_nat (str_len s)), w).
Proof.
  intros Hlen. unfold RSTRING_LEN, rb_str_len, mbind, cext_bind.
  rewrite get_string_run. simpl. unfold mret, cext_ret.
  rewrite polyglot_as_i32_small; [done | unfold INT_MAX in *; lia].
Qed.

Lemma rb_str_capacity_run :
  Z.of_nat (capacity s) ≤ LONG_MAX →
  rb_str_capacity h w = (Done (Z.of_nat (capacity s)), w).
Proof.
  intros Hcap. unfold rb_str_capacity, RUBY_CEXT.rb_str_capacity, mbind, cext_bind.
  rewrite get_string_run. simpl. unfold mret, cext_ret.
  rewrite polyglot_as_i64_small; [done | lia].
Qed.

Lemma rb_str_resize_run n :
  0 ≤ n →
  rb_str_resize h n w =
    (Done h,
     with_heap (<[h := mkRString
                         (str_storage s ++ replicate (Z.to_nat n - capacity s) x00)
                         (Z.to_nat n) (str_enc s) ENC_CODERANGE_UNKNOWN
                         (str_tainted s)]> (heap w)) w).
Proof.
  intros Hn. unfold rb_str_resize, RUBY_CEXT.rb_str_resize, mbind, cext_bind.
  rewrite get_string_run.
  destruct (Z.ltb_spec n 0) as [?|_]; [lia|]. done.
Qed.

Lemma rb_str_set_len_run n :
  Z.of_nat (capacity s) ≤ LONG_MAX →
  0 ≤ n ≤ Z.of_nat (capacity s) →
  rb_str_set_len h n w =
    (Done tt, with_heap (<[h := with_len (Z.to_nat n) s]> (heap w)) w).
Proof.
  intros Hcap Hn. unfold rb_str_set_len, mbind, cext_bind.
  rewrite rb_str_capacity_run by done.
  destruct (Z.gtb_spec n (Z.of_nat (capacity s))) as [?|_]; [lia|].
  destruct (Z.ltb_spec n 0) as [?|_]; [lia|]. simpl.
  unfold RUBY_CEXT.rb_str_set_len, mbind, cext_bind.
  by rewrite modify_string_run.
Qed.

Lemma rb_str_set_len_raise n :
  Z.of_nat (capacity s) ≤ LONG_MAX →
  n < 0 ∨ Z.of_nat (capacity s) < n →
  rb_str_set_len h n w =
    (Raised (Exc rb_eRuntimeError "probable buffer overflow: %ld for %ld"
               [n; Z.of_nat (capacity s)]), w).
Proof.
  intros Hcap Hn. unfold rb_str_set_len, mbind, cext_bind.
  rewrite rb_str_capacity_run by done.
  destruct (Z.gtb_spec n (Z.of_nat (capacity s))) as [?|?]; [done|].
  destruct (Z.ltb_spec n 0) as [?|?]; [done|lia].
Qed.

End run.

Lemma with_heap_twice l1 l2 w : with_heap l2 (with_heap l1 w) = with_heap l2 w.
Proof. done. Qed.

Lemma with_heap_insert_twice w (h : VALUE) (s1 s2 : RString) :
  with_heap (<[h := s2]> (heap (with_heap (<[h := s1]> (heap w)) w)))
    (with_heap (<[h := s1]> (heap w)) w)
  = with_heap (<[h := s2]> (heap w)) w.
Proof. simpl. unfold with_heap. simpl. by rewrite list_insert_insert_eq. Qed.

Section run_compound.
Context (w : world) (h : VALUE) (s : RString).
Hypothesis Hh : heap w !! h = Some s.
Hypothesis Hwf : wf_string s.

Lemma ENC_CODERANGE_CLEAR_run :
  ENC_CODERANGE_CLEAR h w =
    (Done tt, with_heap (<[h := with_coderange ENC_CODERANGE_UNKNOWN s]> (heap w)) w).
Proof. unfold ENC_CODERANGE_CLEAR. by rewrite (modify_string_run w h s). Qed.

(** The string [rb_str_modify_expand] leaves behind. *)
Lemma rb_str_modify_expand_run k :
  0 ≤ k ≤ INT_MAX - Z.of_nat (str_len s) →
  rb_str_modify_expand h k w =
    (Done tt,
     with_heap (<[h := mkRString
                  (str_storage s
                     ++ replicate (str_len s + Z.to_nat k - capacity s) x00)
                  (str_len s) (str_enc s) ENC_CODERANGE_UNKNOWN
                  (str_tainted s)]> (heap w)) w).
Proof.
  intros Hk. destruct Hwf as (Hle & Hint & Hlong).
  unfold rb_str_modify_expand, mbind, cext_bind.
  rewrite (RSTRING_LEN_run w h s) by done.
  destruct (Z.ltb_spec k 0) as [?|_]; [lia|]. simpl.
  destruct (Z.gtb_spec k (INT_MAX - Z.of_nat (str_len s))) as [?|_]; [lia|]. simpl.
  destruct (Z.gtb_spec k 0) as [Hpos|Hzero]; simpl.
  - unfold mbind, cext_bind.
    rewrite (rb_str_resize_run w h s) by (done || lia).
    set (s1 := mkRString _ _ _ _ _).
    assert (Hcap1 : capacity s1 = (capacity s `max` (str_len s + Z.to_nat k))%nat).
    { unfold capacity, s1. simpl. rewrite length_app, length_replicate.
      unfold capacity. lia. }
    rewrite (rb_str_set_len_run _ h s1 (put_string_lookup w h s Hh s1));
      [| unfold INT_MAX, LONG_MAX in *; lia | lia].
    rewrite with_heap_insert_twice. unfold ENC_CODERANGE_CLEAR.
    rewrite (modify_string_run _ h _ (put_string_lookup w h s Hh _)).
    rewrite with_heap_insert_twice.
    do 3 f_equal. unfold s1, with_coderange, with_len. simpl.
    f_equal; [do 2 f_equal; lia | lia].
  - unfold ENC_CODERANGE_CLEAR. rewrite (modify_string_run w h s) by done.
    do 3 f_equal. unfold with_coderange. f_equal.
    replace (str_len s + Z.to_nat k - capacity s)%nat with 0%nat by lia.
    simpl. by rewrite app_nil_r.
Qed.

(** The string [rb_str_cat] leaves behind. *)
Lemma rb_str_cat_run m length :
  0 < length →
  Z.of_nat (str_len s) + length ≤ LONG_MAX →
  rb_str_cat h (Some m) length w =
    (Done h,
     with_heap (<[h := mkRString
                  (content s ++ read_bytes m (Z.to_nat length)
                     ++ drop (str_len s + Z.to_nat length) (str_storage s))
                  (str_len s + Z.to_nat length) (str_enc s)
                  ENC_CODERANGE_UNKNOWN (str_tainted s)]> (heap w)) w).
Proof.
  intros Hpos Hsum. destruct Hwf as (Hle & Hint & Hlong).
  unfold rb_str_cat.
  destruct (Z.eqb_spec length 0) as [?|_]; [lia|].
  unfold mbind, cext_bind.
  destruct (Z.ltb_spec length 0) as [?|_]; [lia|]. simpl.
  rewrite (RSTRING_LEN_run w h s) by done.
  rewrite long_add_small by lia.
  rewrite (rb_str_resize_run w h s Hh) by lia.
  set (s1 := mkRString _ _ _ _ _).
  unfold memcpy_RSTRING_PTR, mbind, cext_bind.
  rewrite (get_string_run _ h s1 (put_string_lookup w h s Hh s1)).
  assert (Hcap1 : capacity s1
                  = (capacity s `max` (str_len s + Z.to_nat length))%nat).
  { unfold capacity, s1. simpl. rewrite length_app, length_replicate.
    unfold capacity. lia. }
  destruct (Z.leb_spec 0 (Z.of_nat (str_len s))) as [_|?]; [|lia].
  destruct (Z.leb_spec 0 length) as [_|?]; [|lia].
  destruct (Z.leb_spec (Z.of_nat (str_len s) + length) (Z.of_nat (capacity s1)))
    as [_|?]; [|lia].
  cbn [andb]. unfold put_string. rewrite with_heap_insert_twice.
  unfold mret, cext_ret. do 3 f_equal.
  unfold with_storage, s1. simpl.
  replace (Z.to_nat (Z.of_nat (str_len s) + length))
    with (str_len s + Z.to_nat length)%nat by lia.
  rewrite !Nat2Z.id.
  f_equal. unfold content.
  rewrite take_app_le by (unfold capacity in *; lia).
  do 2 f_equal.
  rewrite drop_app.
  rewrite (drop_ge (replicate _ _)); [by rewrite app_nil_r|].
  rewrite length_replicate. unfold capacity in *. lia.
Qed.

Lemma rb_str_modify_expand_negative k :
  k < 0 →
  rb_str_modify_expand h k w =
    (Raised (Exc rb_eArgError "negative expanding string size" []), w).
Proof.
  intros Hk. destruct Hwf as (Hle & Hint & Hlong).
  unfold rb_str_modify_expand, mbind, cext_bind.
  rewrite (RSTRING_LEN_run w h s) by done.
  destruct (Z.ltb_spec k 0) as [_|?]; [done|lia].
Qed.

Lemma rb_str_modify_expand_too_big k :
  INT_MAX - Z.of_nat (str_len s) < k →
  rb_str_modify_expand h k w =
    (Raised (Exc rb_eArgError "string size too big" []), w).
Proof.
  intros Hk. destruct Hwf as (Hle & Hint & Hlong).
  unfold rb_str_modify_expand, mbind, cext_bind.
  rewrite (RSTRING_LEN_run w h s) by done.
  destruct (Z.ltb_spec k 0) as [?|_]; [lia|]. simpl.
  destruct (Z.gtb_spec k (INT_MAX - Z.of_nat (str_len s))) as [_|?]; [done|lia].
Qed.

End run_compound.

Lemma rb_str_cat_negative (w : world) (h : VALUE) (b : cptr) (length : Z) :
  length < 0 →
  rb_str_cat h b length w =
    (Raised (Exc rb_eArgError "negative string size (or size too big)" []), w).
Proof.
  intros Hneg. unfold rb_str_cat.
  destruct (Z.eqb_spec length 0) as [?|_]; [lia|].
  unfold mbind, cext_bind.
  destruct (Z.ltb_spec length 0) as [_|?]; [done|lia].
Qed.

(** ** Set-length *)

(** C6. [rb_str_set_len (h, n)] with [n < 0] or [n > capacity (h)] raises
    the "probable buffer overflow" runtime error, whose arguments are the
    requested length and the capacity; with [0 <= n <= capacity (h)] it sets
    the length to [n] and changes nothing else: the bytes of the storage,
    the encoding, the coderange and every other string are as before. *)
Theorem rb_str_set_len_spec (w : world) (h : VALUE) (s : RString) (n : Z) :
  heap w !! h = Some s →
  wf_string s →
  (n < 0 ∨ Z.of_nat (capacity s) < n →
     ∃ e, rb_str_set_len h n w = (Raised e, w)
          ∧ BufferOverflow n (Z.of_nat (capacity s)) e)
  ∧ (0 ≤ n ≤ Z.of_nat (capacity s) →
     ∃ w', rb_str_set_len h n w = (Done tt, w')
           ∧ heap w' !! h = Some (with_len (Z.to_nat n) s)
           ∧ length_of w' h = Some (Z.to_nat n)
           ∧ str_storage <$> heap w' !! h = Some (str_storage s)
           ∧ ∀ h', h' ≠ h → heap w' !! h' = heap w !! h').
Proof.
  intros Hh (Hle & Hint & Hlong). split.
  - intros Hn. eexists. split.
    + by apply rb_str_set_len_raise.
    + by split.
  - intros Hn. eexists. split; [by apply rb_str_set_len_run|].
    unfold length_of. rewrite (put_string_lookup w h s Hh).
    repeat split; try done.
    intros h' Hne. by apply put_string_frame.
Qed.

Lemma rb_str_set_len_spec_witness :
  (∃ e, rb_str_set_len 0%nat 3 world_ab = (Raised e, world_ab)
        ∧ BufferOverflow 3 2 e)
  ∧ (∃ w', rb_str_set_len 0%nat 1 world_ab = (Done tt, w')
           ∧ length_of w' 0%nat = Some 1%nat
           ∧ str_storage <$> heap w' !! 0%nat = Some [x61; x62]).
Proof.
  pose proof (rb_str_set_len_spec world_ab 0%nat
                (mkRString [x61; x62] 2 ASCII_8BIT ENC_CODERANGE_UNKNOWN false))
    as Hspec.
  split.
  - apply (Hspec 3); [reflexivity | unfold wf_string, capacity, INT_MAX, LONG_MAX; simpl; lia | unfold capacity, INT_MAX; simpl; lia].
  - destruct (Hspec 1) as [_ Hok];
      [reflexivity | unfold wf_string, capacity, INT_MAX, LONG_MAX; simpl; lia |].
    destruct Hok as (w' & Hrun & _ & Hlen & Hst & _); [unfold capacity, INT_MAX; simpl; lia |].
    exists w'. by repeat split.
Defined.

(** ** Append *)

(** C7. [rb_str_cat (h, b, 0)] returns [h] and leaves the world, and with it
    the length, capacity, content and coderange of [h], as it was; this
    holds for every pointer [b], [NULL] included, and allocates nothing. *)
Theorem rb_str_cat_zero_noop (w : world) (h : VALUE) (b : cptr) :
  rb_str_cat h b 0 w = (Done h, w).
Proof. reflexivity. Qed.

(** ** Expand *)

(** C8. [rb_str_modify_expand (h, k)] raises the argument error "negative
    expanding string size" for every [k < 0], the argument error "string
    size too big" for every [k > INT_MAX - length (h)], and returns normally
    for every other [k]. *)
Theorem rb_str_modify_expand_guards (w : world) (h : VALUE) (s : RString) (k : Z) :
  heap w !! h = Some s →
  wf_string s →
  (k < 0 →
     ∃ e, rb_str_modify_expand h k w = (Raised e, w)
          ∧ InvalidArgument e
          ∧ exc_fmt e = "negative expanding string size"%string)
  ∧ (INT_MAX - Z.of_nat (str_len s) < k →
     ∃ e, rb_str_modify_expand h k w = (Raised e, w)
          ∧ InvalidArgument e
          ∧ exc_fmt e = "string size too big"%string)
  ∧ (0 ≤ k ≤ INT_MAX - Z.of_nat (str_len s) →
     ∃ w', rb_str_modify_expand h k w = (Done tt, w')).
Proof.
  intros Hh Hwf. split; [|split].
  - intros Hk. eexists. split; [by eapply rb_str_modify_expand_negative|by split].
  - intros Hk. eexists. split; [by eapply rb_str_modify_expand_too_big|by split].
  - intros Hk. eexists. by apply rb_str_modify_expand_run.
Qed.

Lemma rb_str_modify_expand_guards_witness :
  (∃ e, rb_str_modify_expand 0%nat (-1) world_ab = (Raised e, world_ab)
        ∧ InvalidArgument e
        ∧ exc_fmt e = "negative expanding string size"%string)
  ∧ (∃ e, rb_str_modify_expand 0%nat 2147483646 world_ab = (Raised e, world_ab)
          ∧ InvalidArgument e
          ∧ exc_fmt e = "string size too big"%string)
  ∧ (∃ w', rb_str_modify_expand 0%nat 2147483645 world_ab = (Done tt, w')).
Proof.
  pose proof (λ k, rb_str_modify_expand_guards world_ab 0%nat
                (mkRString [x61; x62] 2 ASCII_8BIT ENC_CODERANGE_UNKNOWN false) k
                eq_refl) as Hspec.
  split; [|split].
  - apply (Hspec (-1)); [unfold wf_string, capacity, INT_MAX, LONG_MAX; simpl; lia | lia].
  - apply (Hspec 2147483646); [unfold wf_string, capacity, INT_MAX, LONG_MAX; simpl; lia | unfold capacity, INT_MAX; simpl; lia].
  - apply (Hspec 2147483645); [unfold wf_string, capacity, INT_MAX, LONG_MAX; simpl; lia | unfold capacity, INT_MAX; simpl; lia].
Defined.

(** ** Conversion *)

(** C9. [rb_str_conv_enc_opts (h, from, to, flags, options)] returns [h]
    itself, in an unchanged world, when [to] is null and when [from] equals
    [to], where a null [from] stands for the encoding of [h]. *)
Theorem rb_str_conv_enc_opts_identity (w : world) (h : VALUE)
    (from to : option rb_encoding) (ecflags : Z) (ecopts : option VALUE) :
  (to = None → rb_str_conv_enc_opts h from to ecflags ecopts w = (Done h, w))
  ∧ (is_Some from → from = to →
       rb_str_conv_enc_opts h from to ecflags ecopts w = (Done h, w))
  ∧ (∀ s, from = None → heap w !! h = Some s → to = Some (str_enc s) →
       rb_str_conv_enc_opts h from to ecflags ecopts w = (Done h, w)).
Proof.
  split; [|split].
  - by intros ->.
  - intros [e ->] <-. unfold rb_str_conv_enc_opts, mbind, cext_bind. simpl.
    by rewrite decide_True.
  - intros s -> Hh ->. unfold rb_str_conv_enc_opts, rb_enc_get, mbind, cext_bind.
    rewrite (get_string_run w h s Hh). simpl. by rewrite decide_True.
Qed.

Lemma rb_str_conv_enc_opts_identity_witness :
  rb_str_conv_enc_opts 0%nat (Some UTF_8) None 0 None world_ab = (Done 0%nat, world_ab)
  ∧ rb_str_conv_enc_opts 0%nat (Some UTF_8) (Some UTF_8) 0 None world_ab
    = (Done 0%nat, world_ab)
  ∧ rb_str_conv_enc_opts 0%nat None (Some ASCII_8BIT) 0 None world_ab
    = (Done 0%nat, world_ab).
Proof.
  split; [|split].
  - apply (proj1 (rb_str_conv_enc_opts_identity world_ab 0%nat
                    (Some UTF_8) None 0 None)).
    reflexivity.
  - apply (proj1 (proj2 (rb_str_conv_enc_opts_identity world_ab 0%nat
                           (Some UTF_8) (Some UTF_8) 0 None))).
    + exists UTF_8. reflexivity.
    + reflexivity.
  - apply (proj2 (proj2 (rb_str_conv_enc_opts_identity world_ab 0%nat
                           None (Some ASCII_8BIT) 0 None))
             (mkRString [x61; x62] 2 ASCII_8BIT ENC_CODERANGE_UNKNOWN false));
      reflexivity.
Defined.

(** ** Rejected arguments *)

(** C10. When [rb_str_cat] is given a negative length, when
    [rb_str_modify_expand] is given a negative or an overflowing size and
    when [rb_str_set_len] is given a length outside [0, capacity], the
    exception is raised in the world as it was before the call: nothing of
    the handle (length, capacity, content, coderange) or of any other
    string has been touched. *)
Theorem rejection_is_atomic (w : world) (h : VALUE) (s : RString) :
  heap w !! h = Some s →
  wf_string s →
  (∀ (b : cptr) (length : Z), length < 0 →
     ∃ e, rb_str_cat h b length w = (Raised e, w))
  ∧ (∀ k : Z, k < 0 ∨ INT_MAX - Z.of_nat (str_len s) < k →
     ∃ e, rb_str_modify_expand h k w = (Raised e, w))
  ∧ (∀ n : Z, n < 0 ∨ Z.of_nat (capacity s) < n →
     ∃ e, rb_str_set_len h n w = (Raised e, w)).
Proof.
  intros Hh Hwf. pose proof Hwf as (Hle & Hint & Hlong).
  split; [|split].
  - intros b length Hneg. eexists. by apply rb_str_cat_negative.
  - intros k [Hk|Hk]; eexists.
    + by eapply rb_str_modify_expand_negative.
    + by eapply rb_str_modify_expand_too_big.
  - intros n Hn. eexists. by apply rb_str_set_len_raise.
Qed.

Lemma rejection_is_atomic_witness :
  (∃ e, rb_str_cat 0%nat None (-1) world_ab = (Raised e, world_ab))
  ∧ (∃ e, rb_str_modify_expand 0%nat (-1) world_ab = (Raised e, world_ab))
  ∧ (∃ e, rb_str_modify_expand 0%nat INT_MAX world_ab = (Raised e, world_ab))
  ∧ (∃ e, rb_str_set_len 0%nat 3 world_ab = (Raised e, world_ab)).
Proof.
  destruct (rejection_is_atomic world_ab 0%nat
              (mkRString [x61; x62] 2 ASCII_8BIT ENC_CODERANGE_UNKNOWN false))
    as (Hcat & Hexp & Hset);
    [reflexivity | unfold wf_string, capacity, INT_MAX, LONG_MAX; simpl; lia |].
  split; [|split; [|split]].
  - apply Hcat. lia.
  - apply Hexp. left. lia.
  - apply Hexp. right. unfold capacity, INT_MAX; simpl; lia.
  - apply Hset. right. unfold capacity, INT_MAX; simpl; lia.
Defined.

(** ** The sample worlds *)

(** The two sample worlds are what the constructors of [string.c] make. *)
Lemma world_ab_made :
  rb_str_new (Some (memory_of [x61; x62])) 2 (world0 UTF_8 None) = (Done 0%nat, world_ab).
Proof. reflexivity. Qed.

Lemma world_buf4_made :
  rb_str_buf_new 4 (world0 UTF_8 None) = (Done 0%nat, world_buf4).
Proof. reflexivity. Qed.

(** ** Expand, continued *)

(** C2, as the specification states it, fails: on the empty buffer of
    capacity 4 that [rb_str_buf_new (4)] makes, [rb_str_modify_expand (h, 2)]
    returns with the capacity still 4, which is less than 4 + 2. *)
Lemma rb_str_modify_expand_capacity_before :
  capacity_of world_buf4 0%nat = Some 4%nat
  ∧ (∃ w', rb_str_modify_expand 0%nat 2 world_buf4 = (Done tt, w')
           ∧ capacity_of w' 0%nat = Some 4%nat)
  ∧ ¬ (∀ w' c', rb_str_modify_expand 0%nat 2 world_buf4 = (Done tt, w') →
                capacity_of w' 0%nat = Some c' →
                Z.of_nat 4 + 2 ≤ Z.of_nat c').
Proof.
  split; [reflexivity|]. split.
  - eexists. split; [lazy; reflexivity | reflexivity].
  - intros Hclaim.
    specialize (Hclaim _ 4%nat eq_refl eq_refl). lia.
Qed.

(** C2, amended.  For every [k] with [0 <= k <= INT_MAX - length (h)],
    [rb_str_modify_expand (h, k)] leaves the length and the content of [h]
    unchanged, afterwards [capacity (h) >= length (h) + k] (room for [k]
    bytes after the content: the bound counts from the length, not from
    the former capacity), and the coderange is unknown.  The invariant of
    the string is kept and no other string changes. *)
Theorem rb_str_modify_expand_spec (w : world) (h : VALUE) (s : RString) (k : Z) :
  heap w !! h = Some s →
  wf_string s →
  0 ≤ k ≤ INT_MAX - Z.of_nat (str_len s) →
  ∃ w' s', rb_str_modify_expand h k w = (Done tt, w')
           ∧ heap w' !! h = Some s'
           ∧ str_len s' = str_len s
           ∧ content s' = content s
           ∧ Z.of_nat (str_len s) + k ≤ Z.of_nat (capacity s')
           ∧ str_coderange s' = ENC_CODERANGE_UNKNOWN
           ∧ wf_string s'
           ∧ ∀ h', h' ≠ h → heap w' !! h' = heap w !! h'.
Proof.
  intros Hh Hwf Hk. pose proof Hwf as (Hle & Hint & Hlong).
  eexists _, _. split; [by apply rb_str_modify_expand_run|].
  split; [apply (put_string_lookup w h s Hh)|].
  unfold wf_string, content, capacity in *. simpl.
  rewrite length_app, length_replicate.
  unfold INT_MAX, LONG_MAX in *.
  repeat split; try lia.
  - by rewrite take_app_le.
  - intros h' Hne. by apply list_lookup_insert_ne.
Qed.

Lemma rb_str_modify_expand_spec_witness :
  ∃ w' s', rb_str_modify_expand 0%nat 3 world_ab = (Done tt, w')
           ∧ heap w' !! 0%nat = Some s'
           ∧ str_len s' = 2%nat
           ∧ content s' = [x61; x62]
           ∧ 2 + 3 ≤ Z.of_nat (capacity s').
Proof.
  destruct (rb_str_modify_expand_spec world_ab 0%nat
              (mkRString [x61; x62] 2 ASCII_8BIT ENC_CODERANGE_UNKNOWN false) 3)
    as (w' & s' & Hrun & Hs' & Hlen & Hcontent & Hcap & _);
    [reflexivity
    | unfold wf_string, capacity, INT_MAX, LONG_MAX; simpl; lia
    | unfold INT_MAX; simpl; lia |].
  exists w', s'. repeat split; assumption.
Defined.

(** ** Append, continued *)




(** ** Construction *)

Lemma lookup_fresh (l : list RString) (s : RString) : (l ++ [s]) !! length l = Some s.
Proof. by rewrite list_lookup_middle. Qed.

Lemma insert_fresh (l : list RString) (s s' : RString) :
  <[length l := s']> (l ++ [s]) = l ++ [s'].
Proof.
  replace (length l) with (length l + 0)%nat at 1 by lia.
  by rewrite insert_app_r.
Qed.

Lemma lookup_fresh_frame (l : list RString) (s : RString) (h' : VALUE) :
  h' ≠ length l → (l ++ [s]) !! h' = l !! h'.
Proof.
  intros Hne. destruct (decide (h' < length l)%nat) as [Hlt|Hge].
  - by rewrite lookup_app_l.
  - rewrite !lookup_ge_None_2; [done | lia |].
    rewrite length_app. simpl. lia.
Qed.

Lemma rb_str_new_negative (w : world) (p : cptr) (len : Z) :
  len < 0 →
  rb_str_new p len w =
    (Raised (Exc rb_eArgError "negative string size (or size too big)" []), w).
Proof.
  intros Hneg. unfold rb_str_new, mbind, cext_bind.
  destruct (Z.ltb_spec len 0) as [_|?]; [done|lia].
Qed.

Lemma rb_str_new_run (w : world) (p : cptr) (len : Z) :
  0 ≤ len →
  rb_str_new p len w =
    (Done (length (heap w)),
     with_heap (heap w ++ [mkRString (bytes_at p (Z.to_nat len)) (Z.to_nat len)
                             ASCII_8BIT ENC_CODERANGE_UNKNOWN false]) w).
Proof.
  intros Hlen. unfold rb_str_new, mbind, cext_bind.
  destruct (Z.ltb_spec len 0) as [?|_]; [lia|]. simpl.
  by destruct p.
Qed.

(** C4. [rb_str_new (ptr, length)] raises the argument error for every
    [length < 0].  For every [length >= 0] it returns a new handle, of
    [length] bytes: zeros when [ptr] is null, the [length] bytes at [ptr]
    otherwise; reading them back through the materialised pointer gives
    exactly these [length] bytes; the coderange of the new string is
    unknown, and no existing string changes. *)
Theorem rb_str_new_spec (w : world) (ptr : cptr) (len : Z) :
  (len < 0 →
     ∃ e, rb_str_new ptr len w = (Raised e, w) ∧ InvalidArgument e)
  ∧ (0 ≤ len →
     ∃ h w' s', rb_str_new ptr len w = (Done h, w')
                ∧ heap w !! h = None
                ∧ heap w' !! h = Some s'
                ∧ str_len s' = Z.to_nat len
                ∧ (ptr = None → content s' = replicate (Z.to_nat len) x00)
                ∧ (∀ m, ptr = Some m → content s' = read_bytes m (Z.to_nat len))
                ∧ materialize h w' = (Done (content s'), w')
                ∧ length (content s') = Z.to_nat len
                ∧ str_coderange s' = ENC_CODERANGE_UNKNOWN
                ∧ ∀ h', h' ≠ h → heap w' !! h' = heap w !! h').
Proof.
  split.
  - intros Hneg. eexists. split; [by apply rb_str_new_negative|done].
  - intros Hlen. eexists _, _, _. split; [by apply rb_str_new_run|].
    assert (Hcontent : ∀ p,
      content (mkRString (bytes_at p (Z.to_nat len)) (Z.to_nat len)
                 ASCII_8BIT ENC_CODERANGE_UNKNOWN false)
      = bytes_at p (Z.to_nat len)).
    { intros p. unfold content. simpl. apply take_ge. by rewrite length_bytes_at. }
    split; [by apply lookup_ge_None_2|].
    split; [apply lookup_fresh|].
    split; [done|].
    split; [by intros ->; rewrite Hcontent|].
    split; [by intros m ->; rewrite Hcontent|].
    split.
    { unfold materialize, mbind, cext_bind, get_string. simpl.
      by rewrite lookup_fresh. }
    split; [by rewrite Hcontent, length_bytes_at|].
    split; [done|].
    intros h' Hne. by apply lookup_fresh_frame.
Qed.

Lemma rb_str_new_spec_witness :
  (∃ e, rb_str_new None (-1) world_ab = (Raised e, world_ab) ∧ InvalidArgument e)
  ∧ (∃ h w', rb_str_new (Some (memory_of [x68; x69])) 2 world_ab = (Done h, w')
             ∧ materialize h w' = (Done [x68; x69], w')
             ∧ coderange_of w' h = Some ENC_CODERANGE_UNKNOWN)
  ∧ (∃ h w', rb_str_new None 3 world_ab = (Done h, w')
             ∧ materialize h w' = (Done [x00; x00; x00], w')).
Proof.
  split; [|split].
  - apply (proj1 (rb_str_new_spec world_ab None (-1))). lia.
  - destruct (proj2 (rb_str_new_spec world_ab (Some (memory_of [x68; x69])) 2))
      as (h & w' & s' & Hrun & _ & Hs' & _ & _ & Hsome & Hmat & _ & Hcr & _); [lia|].
    exists h, w'. split; [assumption|]. split.
    + rewrite Hmat. rewrite (Hsome _ eq_refl). reflexivity.
    + unfold coderange_of. rewrite Hs'. simpl. by rewrite Hcr.
  - destruct (proj2 (rb_str_new_spec world_ab None 3))
      as (h & w' & s' & Hrun & _ & Hs' & _ & Hnull & _ & Hmat & _); [lia|].
    exists h, w'. split; [assumption|].
    rewrite Hmat. rewrite (Hnull eq_refl). reflexivity.
Defined.

(** ** External strings *)

Lemma get_string_fresh (w : world) (s : RString) :
  get_string (length (heap w)) (with_heap (heap w ++ [s]) w)
  = (Done s, with_heap (heap w ++ [s]) w).
Proof. apply get_string_run. apply lookup_fresh. Qed.

Lemma modify_string_fresh (w : world) (s : RString) (f : RString → RString) :
  modify_string (length (heap w)) f (with_heap (heap w ++ [s]) w)
  = (Done tt, with_heap (heap w ++ [f s]) w).
Proof.
  rewrite (modify_string_run _ _ s) by apply lookup_fresh.
  cbn [heap with_heap]. by rewrite insert_fresh.
Qed.

Lemma rb_tainted_str_new_with_enc_run (w : world) (ptr : cptr) (len : Z)
    (enc : rb_encoding) :
  0 ≤ len →
  rb_tainted_str_new_with_enc ptr len enc w =
    (Done (length (heap w)),
     with_heap (heap w ++ [mkRString (bytes_at ptr (Z.to_nat len)) (Z.to_nat len)
                             enc ENC_CODERANGE_UNKNOWN true]) w).
Proof.
  intros Hlen.
  unfold rb_tainted_str_new_with_enc, rb_enc_str_new, mbind, cext_bind.
  rewrite rb_str_new_run by done.
  unfold rb_enc_associate, OBJ_TAINT.
  rewrite modify_string_fresh.
  unfold mret, cext_ret.
  by rewrite modify_string_fresh.
Qed.

Lemma scan_coderange_7bit (w : world) (enc : rb_encoding) (bs : list byte) :
  rb_enc_asciicompat enc = true →
  scan_coderange w enc bs = ENC_CODERANGE_7BIT ↔ forallb is_7bit bs = true.
Proof.
  intros Hcompat. unfold scan_coderange. rewrite Hcompat. simpl.
  destruct (forallb is_7bit bs); [done|].
  by destruct (enc_valid w enc bs).
Qed.

Section external.
Context (w : world) (h : VALUE) (s : RString) (eenc : rb_encoding).
Hypothesis Hh : heap w !! h = Some s.
Hypothesis Hcr : str_coderange s = ENC_CODERANGE_UNKNOWN.
Hypothesis Henc : str_enc s = eenc.

(** The first branch of [rb_external_str_with_enc]. *)
Lemma rb_external_str_with_enc_binary :
  eenc = US_ASCII →
  forallb is_7bit (content s) = false →
  rb_external_str_with_enc h eenc w =
    (Done h,
     with_heap (<[h := mkRString (str_storage s) (str_len s) ASCII_8BIT
                         ENC_CODERANGE_UNKNOWN (str_tainted s)]> (heap w)) w).
Proof.
  intros Hus H7.
  unfold rb_external_str_with_enc, mbind, cext_bind.
  rewrite decide_True by done.
  unfold rb_enc_str_coderange, mbind, cext_bind.
  rewrite (get_string_run w h s Hh), Hcr.
  unfold get_world, put_string, mret, cext_ret.
  assert (Hscan : scan_coderange w (str_enc s) (content s) ≠ ENC_CODERANGE_7BIT).
  { rewrite scan_coderange_7bit by (by rewrite Henc, Hus). by rewrite H7. }
  rewrite bool_decide_false by done. cbn [negb].
  unfold rb_enc_associate_index, rb_ascii8bit_encindex. cbn [rb_enc_to_index
    rb_ascii8bit_encoding rb_enc_from_index].
  unfold rb_enc_associate.
  rewrite (modify_string_run _ h _ (put_string_lookup w h s Hh _)).
  by rewrite with_heap_insert_twice.
Qed.

(** The second branch of [rb_external_str_with_enc]. *)
Lemma rb_external_str_with_enc_associate :
  eenc ≠ US_ASCII ∨ forallb is_7bit (content s) = true →
  rb_external_str_with_enc h eenc w =
    rb_str_conv_enc h (Some eenc) (default_internal w)
      (with_heap (<[h := mkRString (str_storage s) (str_len s) eenc
                         ENC_CODERANGE_UNKNOWN (str_tainted s)]> (heap w)) w).
Proof.
  intros Hcase.
  unfold rb_external_str_with_enc, mbind, cext_bind.
  destruct (decide (eenc = rb_usascii_encoding)) as [Hus|Hne].
  - destruct Hcase as [?|H7]; [done|].
    unfold rb_enc_str_coderange, mbind, cext_bind.
    rewrite (get_string_run w h s Hh), Hcr.
    unfold get_world, put_string, mret, cext_ret.
    assert (Hscan : scan_coderange w (str_enc s) (content s) = ENC_CODERANGE_7BIT).
    { apply scan_coderange_7bit; [by rewrite Henc, Hus | done]. }
    rewrite bool_decide_true by done. cbn [negb].
    unfold rb_enc_associate.
    rewrite (modify_string_run _ h _ (put_string_lookup w h s Hh _)).
    by rewrite with_heap_insert_twice.
  - unfold mret, cext_ret, rb_enc_associate.
    by rewrite (modify_string_run w h s Hh).
Qed.

End external.

Lemma rb_str_conv_enc_unset (w : world) (h : VALUE) (from : option rb_encoding) :
  rb_str_conv_enc h from None w = (Done h, w).
Proof. reflexivity. Qed.

Lemma rb_str_conv_enc_same (w : world) (h : VALUE) (enc : rb_encoding) :
  rb_str_conv_enc h (Some enc) (Some enc) w = (Done h, w).
Proof.
  unfold rb_str_conv_enc, rb_str_conv_enc_opts, mbind, cext_bind. simpl.
  by rewrite decide_True.
Qed.

(** C3, as the specification states it, fails: UTF-8 is an ASCII-compatible
    encoding and the byte 0xFF is not 7-bit, yet the string that
    [rb_external_str_new] makes of it under the external encoding UTF-8 is
    tagged UTF-8, not ASCII-8BIT. *)
Lemma rb_external_str_new_ascii_compatible :
  rb_enc_asciicompat UTF_8 = true
  ∧ forallb is_7bit [xff] = false
  ∧ ∃ h w', rb_external_str_new (Some (memory_of [xff])) 1 (world0 UTF_8 None)
            = (Done h, w')
            ∧ encoding_of w' h = Some UTF_8
            ∧ encoding_of w' h ≠ Some ASCII_8BIT.
Proof.
  split; [reflexivity|]. split; [reflexivity|].
  eexists _, _. split; [lazy; reflexivity|].
  split; [reflexivity | discriminate].
Qed.

(** C3, amended.  The test of [rb_external_str_with_enc] is that the
    external encoding is US-ASCII itself.  When it is and the bytes are not
    7-bit-clean, the new handle is tagged ASCII-8BIT and holds the bytes as
    they are.  Otherwise the external encoding is associated and the string
    converted to the default internal encoding: the same handle, tagged
    with the external encoding, when the internal encoding is unset or is
    the external one; a handle tagged with the internal encoding holding
    the transcoded bytes when the two differ.  The external, locale and
    filesystem constructors are this one at the encoding configured for
    each. *)
Theorem rb_external_str_new_with_enc_spec (w : world) (ptr : cptr) (len : Z)
    (eenc : rb_encoding) :
  0 ≤ len →
  (eenc = US_ASCII →
   forallb is_7bit (bytes_at ptr (Z.to_nat len)) = false →
     ∃ h w', rb_external_str_new_with_enc ptr len eenc w = (Done h, w')
             ∧ encoding_of w' h = Some ASCII_8BIT
             ∧ content_of w' h = Some (bytes_at ptr (Z.to_nat len)))
  ∧ (eenc ≠ US_ASCII ∨ forallb is_7bit (bytes_at ptr (Z.to_nat len)) = true →
     (default_internal w = None ∨ default_internal w = Some eenc →
        ∃ h w', rb_external_str_new_with_enc ptr len eenc w = (Done h, w')
                ∧ encoding_of w' h = Some eenc
                ∧ content_of w' h = Some (bytes_at ptr (Z.to_nat len)))
     ∧ (∀ to bs', default_internal w = Some to → to ≠ eenc →
        transcode w eenc to 0 (bytes_at ptr (Z.to_nat len)) = Some bs' →
        ∃ h w', rb_external_str_new_with_enc ptr len eenc w = (Done h, w')
                ∧ encoding_of w' h = Some to
                ∧ content_of w' h = Some bs'
                ∧ encoding_of w' (length (heap w)) = Some eenc))
  ∧ rb_external_str_new ptr len w
    = rb_external_str_new_with_enc ptr len (default_external w) w
  ∧ rb_locale_str_new ptr len w
    = rb_external_str_new_with_enc ptr len (locale_encoding w) w
  ∧ rb_filesystem_str_new ptr len w
    = rb_external_str_new_with_enc ptr len (filesystem_encoding w) w.
Proof.
  intros Hlen.
  set (bs := bytes_at ptr (Z.to_nat len)).
  set (s0 := mkRString bs (Z.to_nat len) eenc ENC_CODERANGE_UNKNOWN true).
  set (w1 := with_heap (heap w ++ [s0]) w).
  assert (Hnew : rb_external_str_new_with_enc ptr len eenc w
                 = rb_external_str_with_enc (length (heap w)) eenc w1).
  { unfold rb_external_str_new_with_enc, mbind, cext_bind.
    by rewrite rb_tainted_str_new_with_enc_run. }
  assert (Hh : heap w1 !! length (heap w) = Some s0) by apply lookup_fresh.
  assert (Hcontent : content s0 = bs).
  { unfold content, s0. simpl. apply take_ge. unfold bs. by rewrite length_bytes_at. }
  assert (Hins : ∀ s', <[length (heap w) := s']> (heap w1) = heap w ++ [s'])
    by (intros s'; apply insert_fresh).
  split; [|split]; [| |by repeat split].
  - intros Hus H7. eexists _, _. rewrite Hnew.
    split; [apply (rb_external_str_with_enc_binary w1 _ s0 eenc Hh eq_refl eq_refl Hus);
            by rewrite Hcontent|].
    unfold encoding_of, content_of. rewrite (put_string_lookup w1 _ s0 Hh).
    split; [done|]. simpl. f_equal. exact Hcontent.
  - intros Hcase.
    assert (Hassoc := rb_external_str_with_enc_associate w1 _ s0 eenc Hh eq_refl eq_refl).
    rewrite Hcontent in Hassoc. specialize (Hassoc Hcase).
    rewrite Hnew, Hassoc. clear Hassoc Hnew.
    change (default_internal w1) with (default_internal w).
    set (s1 := mkRString (str_storage s0) (str_len s0) eenc ENC_CODERANGE_UNKNOWN
                 (str_tainted s0)).
    pose proof (put_string_lookup w1 _ s0 Hh s1) as Hh1.
    split.
    + intros Hint. eexists _, _. split.
      * destruct Hint as [-> | ->].
        -- apply rb_str_conv_enc_unset.
        -- apply rb_str_conv_enc_same.
      * unfold encoding_of, content_of. rewrite Hh1. split; [done|].
        simpl. f_equal. exact Hcontent.
    + intros to bs' Hto Hne Htrans. rewrite Hto.
      unfold rb_str_conv_enc, rb_str_conv_enc_opts, mbind, cext_bind.
      unfold mret at 1, cext_ret at 1.
      rewrite decide_False by done.
      unfold RUBY_CEXT.rb_str_conv_enc_opts, mbind, cext_bind.
      rewrite (get_string_run _ _ s1 Hh1).
      unfold get_world.
      change (content s1) with (content s0). rewrite Hcontent.
      replace (transcode _ eenc to 0 bs) with (transcode w eenc to 0 bs)
        by reflexivity.
      rewrite Htrans.
      eexists _, _. split; [reflexivity|].
      unfold encoding_of, content_of. cbn [heap with_heap].
      rewrite Hins. rewrite lookup_fresh.
      split; [done|]. split.
      * simpl. f_equal. unfold content. simpl. by apply take_ge.
      * rewrite lookup_app_l by (rewrite length_app; simpl; lia).
        by rewrite lookup_fresh.
Qed.

Lemma rb_external_str_new_with_enc_spec_witness :
  (∃ h w', rb_external_str_new (Some (memory_of [xff])) 1 (world0 US_ASCII None)
           = (Done h, w')
           ∧ encoding_of w' h = Some ASCII_8BIT
           ∧ content_of w' h = Some [xff])
  ∧ (∃ h w', rb_external_str_new_with_enc (Some (memory_of [x41])) 1 US_ASCII
               (world0 US_ASCII (Some UTF_8))
             = (Done h, w')
             ∧ encoding_of w' h = Some UTF_8
             ∧ content_of w' h = Some [x41]).
Proof.
  split.
  - destruct (rb_external_str_new_with_enc_spec (world0 US_ASCII None)
                (Some (memory_of [xff])) 1 US_ASCII) as (Hbinary & _ & Hext & _);
      [lia|].
    rewrite Hext. apply Hbinary; reflexivity.
  - destruct (rb_external_str_new_with_enc_spec (world0 US_ASCII (Some UTF_8))
                (Some (memory_of [x41])) 1 US_ASCII) as (_ & Hassoc & _);
      [lia|].
    destruct Hassoc as [_ Hconv]; [right; reflexivity|].
    destruct (Hconv UTF_8 [x41]) as (h & w' & Hrun & Henc & Hcontent & _);
      [reflexivity | discriminate | reflexivity |].
    exists h, w'. repeat split; assumption.
Defined.

(** ** C strings *)

Lemma strlen_from_first_nul (fuel : nat) (str : memory) (i n : nat) :
  (i ≤ n)%nat →
  (n - i < fuel)%nat →
  str n = x00 →
  (∀ j, (i ≤ j < n)%nat → str j ≠ x00) →
  strlen_from fuel str i = Some n.
Proof.
  revert i. induction fuel as [|fuel IH]; intros i Hin Hfuel Hn Hbefore; [lia|].
  simpl. destruct (Byte.eqb (str i) x00) eqn:Hi.
  - apply Byte.byte_dec_bl in Hi.
    destruct (decide (i = n)) as [->|Hne]; [done|].
    exfalso. apply (Hbefore i); [lia|done].
  - assert (i ≠ n).
    { intros ->. rewrite Hn in Hi. discriminate Hi. }
    apply IH; [lia | lia | done |]. intros j Hj. apply Hbefore. lia.
Qed.

Lemma strlen_from_sound (fuel : nat) (str : memory) (i n : nat) :
  strlen_from fuel str i = Some n →
  (i ≤ n)%nat ∧ (n - i < fuel)%nat ∧ str n = x00
  ∧ ∀ j, (i ≤ j < n)%nat → str j ≠ x00.
Proof.
  revert i. induction fuel as [|fuel IH]; intros i Hrun; [done|].
  simpl in Hrun. destruct (Byte.eqb (str i) x00) eqn:Hi.
  - injection Hrun as <-. apply Byte.byte_dec_bl in Hi.
    repeat split; [lia | lia | done |]. intros j Hj. lia.
  - apply IH in Hrun as (Hle & Hfuel & Hn & Hbefore).
    repeat split; [lia | lia | done |].
    intros j Hj. destruct (decide (j = i)) as [->|Hne].
    + by apply Byte.eqb_false.
    + apply Hbefore. lia.
Qed.

Lemma strlen_first_nul (fuel : nat) (str : memory) (n : nat) :
  first_nul str n → (n < fuel)%nat → strlen fuel str = Some n.
Proof.
  intros [Hn Hbefore] Hfuel. apply strlen_from_first_nul; [lia | lia | done |].
  intros j Hj. apply Hbefore. lia.
Qed.

Lemma read_bytes_no_nul (str : memory) (n : nat) :
  first_nul str n → x00 ∉ read_bytes str n.
Proof.
  intros [_ Hbefore] Hin. unfold read_bytes in Hin.
  apply list_elem_of_fmap in Hin as (i & Hi & Hseq).
  apply elem_of_seq in Hseq. apply (Hbefore i); [lia|done].
Qed.

Lemma read_bytes_S (str : memory) (n : nat) :
  read_bytes str (S n) = read_bytes str n ++ [str n].
Proof. unfold read_bytes. by rewrite seq_S, fmap_app. Qed.

Lemma memory_of_read_bytes (str : memory) (n i : nat) :
  (i < n)%nat → memory_of (read_bytes str n) i = str i.
Proof.
  intros Hi. unfold memory_of, read_bytes.
  rewrite list_lookup_fmap, lookup_seq_lt by done. done.
Qed.

(** X1. [ruby_strdup] copies a C string with its terminator: given enough
    fuel to reach the first NUL, at offset [n], the block it returns has
    [n + 1] bytes, the [n] bytes of the text followed by NUL, so that its
    [strlen] is [n] again. *)
Theorem ruby_strdup_copies (fuel : nat) (str : memory) (n : nat) :
  first_nul str n →
  (n < fuel)%nat →
  ∃ block, ruby_strdup fuel str = Some block
           ∧ block = read_bytes str n ++ [x00]
           ∧ length block = S n
           ∧ (x00 ∉ take n block)
           ∧ strlen fuel (memory_of block) = Some n.
Proof.
  intros Hnul Hfuel. pose proof Hnul as [Hn Hbefore].
  eexists. split.
  { unfold ruby_strdup. by rewrite (strlen_first_nul fuel str n). }
  assert (Hblock : read_bytes str (S n) = read_bytes str n ++ [x00])
    by (by rewrite read_bytes_S, Hn).
  split; [done|]. split; [apply length_read_bytes|].
  split.
  { rewrite Hblock, take_app_length' by (by rewrite length_read_bytes).
    by apply read_bytes_no_nul. }
  apply strlen_first_nul; [|done]. split.
  - by rewrite memory_of_read_bytes by lia.
  - intros i Hi. rewrite memory_of_read_bytes by lia. by apply Hbefore.
Qed.

Lemma ruby_strdup_copies_witness :
  ∃ block, ruby_strdup 8 (memory_of [x68; x69; x00; x7a]) = Some block
           ∧ block = [x68; x69; x00]
           ∧ strlen 8 (memory_of block) = Some 2%nat.
Proof.
  destruct (ruby_strdup_copies 8 (memory_of [x68; x69; x00; x7a]) 2)
    as (block & Hrun & Hblock & _ & _ & Hlen).
  - split; [reflexivity|].
    intros i Hi. destruct i as [|[|i]]; [discriminate | discriminate | lia].
  - lia.
  - exists block. repeat split; assumption.
Defined.

(** X2. [rb_str_new_cstr] makes the string of a C string: given enough fuel
    to reach the first NUL, at offset [n], it returns a new handle of
    length [n] whose content is the [n] bytes before that NUL; the content
    holds no NUL byte, and no existing string changes. *)
Theorem rb_str_new_cstr_spec (fuel : nat) (string : memory) (n : nat) (w : world) :
  first_nul string n →
  (n < fuel)%nat →
  ∃ new h w' s', rb_str_new_cstr fuel string = Some new
                 ∧ new w = (Done h, w')
                 ∧ heap w !! h = None
                 ∧ heap w' !! h = Some s'
                 ∧ str_len s' = n
                 ∧ content s' = read_bytes string n
                 ∧ (x00 ∉ content s')
                 ∧ ∀ h', h' ≠ h → heap w' !! h' = heap w !! h'.
Proof.
  intros Hnul Hfuel. eexists _, _, _, _. split.
  { unfold rb_str_new_cstr. rewrite (strlen_first_nul fuel string n) by done.
    reflexivity. }
  split; [apply rb_str_new_run; lia|].
  rewrite Nat2Z.id.
  assert (Hcontent : content (mkRString (bytes_at (Some string) n) n ASCII_8BIT
                                ENC_CODERANGE_UNKNOWN false)
                     = read_bytes string n).
  { unfold content. simpl. apply take_ge. by rewrite length_read_bytes. }
  split; [by apply lookup_ge_None_2|].
  split; [apply lookup_fresh|].
  split; [done|]. split; [done|].
  split; [rewrite Hcontent; by apply read_bytes_no_nul|].
  intros h' Hne. by apply lookup_fresh_frame.
Qed.

Lemma rb_str_new_cstr_spec_witness :
  ∃ new h w' s', rb_str_new_cstr 8 (memory_of [x68; x69; x00; x7a]) = Some new
                 ∧ new world_ab = (Done h, w')
                 ∧ heap w' !! h = Some s'
                 ∧ content s' = [x68; x69].
Proof.
  destruct (rb_str_new_cstr_spec 8 (memory_of [x68; x69; x00; x7a]) 2 world_ab)
    as (new & h & w' & s' & Hnew & Hrun & _ & Hs' & _ & Hcontent & _).
  - split; [reflexivity|].
    intros i Hi. destruct i as [|[|i]]; [discriminate | discriminate | lia].
  - lia.
  - exists new, h, w', s'. repeat split; assumption.
Defined.



(** ** Buffers *)

Lemma rb_str_buf_new_run (w : world) (cap : Z) :
  0 ≤ cap ≤ LONG_MAX →
  rb_str_buf_new cap w =
    (Done (length (heap w)),
     with_heap (heap w ++ [mkRString (replicate (Z.to_nat cap) x00) 0
                             ASCII_8BIT ENC_CODERANGE_UNKNOWN false]) w).
Proof.
  intros Hcap. unfold rb_str_buf_new, mbind, cext_bind.
  rewrite rb_str_new_run by lia. cbn [bytes_at].
  set (s0 := mkRString _ _ _ _ _).
  assert (Hcap0 : capacity s0 = Z.to_nat cap).
  { unfold capacity, s0. simpl. by rewrite length_replicate. }
  rewrite (rb_str_set_len_run (with_heap (heap w ++ [s0]) w) (length (heap w)) s0
             (lookup_fresh (heap w) s0) 0) by lia.
  cbn [heap with_heap]. by rewrite insert_fresh.
Qed.

(** X4. [rb_str_buf_new (capacity)] raises the argument error, allocating
    nothing, for a negative capacity; for every other capacity (a [long])
    it returns a new handle whose string is empty, with exactly [capacity]
    bytes of storage behind it: the [rb_str_set_len (str, 0)] it ends with
    never raises.  No existing string changes. *)
Theorem rb_str_buf_new_spec (w : world) (cap : Z) :
  (cap < 0 →
     ∃ e, rb_str_buf_new cap w = (Raised e, w) ∧ InvalidArgument e)
  ∧ (0 ≤ cap ≤ LONG_MAX →
     ∃ h w' s', rb_str_buf_new cap w = (Done h, w')
                ∧ heap w !! h = None
                ∧ heap w' !! h = Some s'
                ∧ str_len s' = 0%nat
                ∧ content s' = []
                ∧ Z.of_nat (capacity s') = cap
                ∧ wf_string s'
                ∧ ∀ h', h' ≠ h → heap w' !! h' = heap w !! h').
Proof.
  split.
  - intros Hneg. eexists. split.
    + unfold rb_str_buf_new, mbind, cext_bind. by rewrite rb_str_new_negative.
    + done.
  - intros Hcap. eexists _, _, _. split; [by apply rb_str_buf_new_run|].
    split; [by apply lookup_ge_None_2|].
    split; [apply lookup_fresh|].
    unfold wf_string, content, capacity. simpl. rewrite length_replicate.
    unfold INT_MAX. repeat split; try lia.
    intros h' Hne. by apply lookup_fresh_frame.
Qed.

Lemma rb_str_buf_new_spec_witness :
  (∃ e, rb_str_buf_new (-1) world_ab = (Raised e, world_ab) ∧ InvalidArgument e)
  ∧ (∃ h w' s', rb_str_buf_new 16 world_ab = (Done h, w')
                ∧ heap w' !! h = Some s'
                ∧ str_len s' = 0%nat
                ∧ Z.of_nat (capacity s') = 16).
Proof.
  split.
  - apply (proj1 (rb_str_buf_new_spec world_ab (-1))). lia.
  - destruct (proj2 (rb_str_buf_new_spec world_ab 16))
      as (h & w' & s' & Hrun & _ & Hs' & Hlen & _ & Hcap & _);
      [unfold LONG_MAX; lia|].
    exists h, w', s'. repeat split; assumption.
Defined.

(** X5. A buffer of [rb_str_buf_new (capacity)] accepts as its length
    exactly the lengths from 0 to [capacity]: [rb_str_set_len] on it with
    such an [n] gives a string of [n] bytes, and with any other [n] raises
    the overflow error that names [n] and [capacity]. *)
Theorem rb_str_buf_new_set_len (w : world) (cap n : Z) :
  0 ≤ cap ≤ LONG_MAX →
  (0 ≤ n ≤ cap →
     ∃ h w' s', (h ← rb_str_buf_new cap; rb_str_set_len h n;; mret h) w = (Done h, w')
                ∧ heap w' !! h = Some s'
                ∧ str_len s' = Z.to_nat n
                ∧ length (content s') = Z.to_nat n)
  ∧ (n < 0 ∨ cap < n →
     ∃ e w', (h ← rb_str_buf_new cap; rb_str_set_len h n;; mret h) w = (Raised e, w')
             ∧ BufferOverflow n cap e).
Proof.
  intros Hcap.
  set (s0 := mkRString (replicate (Z.to_nat cap) x00) 0 ASCII_8BIT
               ENC_CODERANGE_UNKNOWN false).
  assert (Hcap0 : Z.of_nat (capacity s0) = cap).
  { unfold capacity, s0. simpl. rewrite length_replicate. lia. }
  split; intros Hn.
  - eexists _, _, _. unfold mbind at 1, cext_bind at 1.
    rewrite rb_str_buf_new_run by done. fold s0.
    unfold mbind, cext_bind.
    rewrite (rb_str_set_len_run (with_heap (heap w ++ [s0]) w) (length (heap w)) s0
               (lookup_fresh (heap w) s0) n) by lia.
    split; [reflexivity|]. cbn [heap with_heap]. rewrite insert_fresh.
    split; [apply lookup_fresh|]. split; [done|].
    unfold content. simpl. rewrite length_take, length_replicate. lia.
  - eexists _, _. unfold mbind at 1, cext_bind at 1.
    rewrite rb_str_buf_new_run by done. fold s0.
    unfold mbind, cext_bind.
    rewrite (rb_str_set_len_raise (with_heap (heap w ++ [s0]) w) (length (heap w)) s0
               (lookup_fresh (heap w) s0) n) by lia.
    split; [reflexivity|]. rewrite Hcap0. by split.
Qed.

Lemma rb_str_buf_new_set_len_witness :
  (∃ h w' s', (h ← rb_str_buf_new 4; rb_str_set_len h 3;; mret h) world_ab
              = (Done h, w')
              ∧ heap w' !! h = Some s'
              ∧ str_len s' = 3%nat)
  ∧ (∃ e w', (h ← rb_str_buf_new 4; rb_str_set_len h 5;; mret h) world_ab
             = (Raised e, w')
             ∧ BufferOverflow 5 4 e).
Proof.
  split.
  - destruct (proj1 (rb_str_buf_new_set_len world_ab 4 3 ltac:(unfold LONG_MAX; lia)))
      as (h & w' & s' & Hrun & Hs' & Hlen & _); [lia|].
    exists h, w', s'. repeat split; assumption.
  - apply (proj2 (rb_str_buf_new_set_len world_ab 4 5 ltac:(unfold LONG_MAX; lia))).
    lia.
Defined.

(** X6. Filling a new buffer: [rb_str_cat] on the buffer of
    [rb_str_buf_new (capacity)] with [n > 0] bytes, [n] a [long], gives a
    string whose content is exactly these [n] bytes, whatever the capacity
    was. *)
Theorem rb_str_buf_new_cat (w : world) (cap : Z) (b : memory) (n : Z) :
  0 ≤ cap ≤ LONG_MAX →
  0 < n ≤ LONG_MAX →
  ∃ h w' s', (h ← rb_str_buf_new cap; rb_str_cat h (Some b) n) w = (Done h, w')
             ∧ heap w !! h = None
             ∧ heap w' !! h = Some s'
             ∧ content s' = read_bytes b (Z.to_nat n)
             ∧ str_len s' = Z.to_nat n.
Proof.
  intros Hcap Hn.
  set (s0 := mkRString (replicate (Z.to_nat cap) x00) 0 ASCII_8BIT
               ENC_CODERANGE_UNKNOWN false).
  assert (Hwf0 : wf_string s0).
  { unfold wf_string, capacity, s0, INT_MAX. simpl. rewrite length_replicate. lia. }
  eexists _, _, _. unfold mbind, cext_bind.
  rewrite rb_str_buf_new_run by done. fold s0.
  rewrite (rb_str_cat_run (with_heap (heap w ++ [s0]) w) (length (heap w)) s0
             (lookup_fresh (heap w) s0) Hwf0 b n) by (simpl; lia).
  split; [reflexivity|].
  split; [by apply lookup_ge_None_2|].
  cbn [heap with_heap]. rewrite insert_fresh.
  split; [apply lookup_fresh|].
  split; [|done].
  unfold content. simpl.
  rewrite take_app_length'; [done|]. by rewrite length_read_bytes.
Qed.

Lemma rb_str_buf_new_cat_witness :
  ∃ h w' s', (h ← rb_str_buf_new 1; rb_str_cat h (Some (memory_of [x68; x69])) 2)
               world_ab = (Done h, w')
             ∧ heap w' !! h = Some s'
             ∧ content s' = [x68; x69].
Proof.
  destruct (rb_str_buf_new_cat world_ab 1 (memory_of [x68; x69]) 2)
    as (h & w' & s' & Hrun & _ & Hs' & Hcontent & _);
    [unfold LONG_MAX; lia | unfold LONG_MAX; lia |].
  exists h, w', s'. repeat split; assumption.
Defined.

(** ** Composing the mutators *)

Lemma length_content (s : RString) :
  (str_len s ≤ capacity s)%nat → length (content s) = str_len s.
Proof. intros Hle. unfold content. rewrite length_take. unfold capacity in Hle. lia. Qed.

Lemma take_content_app (s : RString) (bs rest : list byte) (n : nat) :
  (str_len s ≤ capacity s)%nat →
  n = length bs →
  take (str_len s + n) (content s ++ bs ++ rest) = content s ++ bs.
Proof.
  intros Hle ->. rewrite app_assoc. apply take_app_length'.
  by rewrite length_app, length_content.
Qed.

Lemma rb_str_cat_result_wf (s : RString) (b : memory) (n : nat) :
  wf_string s →
  let s' := mkRString (content s ++ read_bytes b n
                         ++ drop (str_len s + n) (str_storage s))
              (str_len s + n) (str_enc s) ENC_CODERANGE_UNKNOWN (str_tainted s) in
  (str_len s' ≤ capacity s')%nat
  ∧ Z.of_nat (capacity s') ≤ LONG_MAX `max` (Z.of_nat (str_len s) + Z.of_nat n).
Proof.
  intros (Hle & Hint & Hlong). simpl. unfold capacity at 1 2. simpl.
  rewrite !length_app, length_read_bytes, length_drop, length_content by done.
  unfold capacity in *. lia.
Qed.

(** X7. [rb_str_cat] keeps the string well formed and touches neither its
    encoding nor its taint: after an append of [n > 0] bytes, the new
    length a [long], the length is within the capacity, and if the new
    length still fits an [int] the whole invariant of the string holds
    again. *)
Theorem rb_str_cat_keeps_invariant (w : world) (h : VALUE) (s : RString)
    (b : memory) (n : Z) :
  heap w !! h = Some s →
  wf_string s →
  0 < n →
  Z.of_nat (str_len s) + n ≤ LONG_MAX →
  ∃ w' s', rb_str_cat h (Some b) n w = (Done h, w')
           ∧ heap w' !! h = Some s'
           ∧ (str_len s' ≤ capacity s')%nat
           ∧ str_enc s' = str_enc s
           ∧ str_tainted s' = str_tainted s
           ∧ (Z.of_nat (str_len s) + n ≤ INT_MAX → wf_string s').
Proof.
  intros Hh Hwf Hn Hlong'.
  eexists _, _. split; [by apply rb_str_cat_run|].
  split; [apply (put_string_lookup w h s Hh)|].
  destruct (rb_str_cat_result_wf s b (Z.to_nat n) Hwf) as [Hle' Hcap'].
  split; [exact Hle'|]. split; [done|]. split; [done|].
  intros Hsum. split; [exact Hle'|]. split.
  - simpl. lia.
  - unfold INT_MAX, LONG_MAX in *. lia.
Qed.

Lemma rb_str_cat_keeps_invariant_witness :
  ∃ w' s', rb_str_cat 0%nat (Some (memory_of [x63])) 1 world_ab = (Done 0%nat, w')
           ∧ heap w' !! 0%nat = Some s'
           ∧ (str_len s' ≤ capacity s')%nat
           ∧ str_enc s' = ASCII_8BIT.
Proof.
  destruct (rb_str_cat_keeps_invariant world_ab 0%nat
              (mkRString [x61; x62] 2 ASCII_8BIT ENC_CODERANGE_UNKNOWN false)
              (memory_of [x63]) 1)
    as (w' & s' & Hrun & Hs' & Hle & Henc & _);
    [reflexivity | unfold wf_string, capacity, INT_MAX, LONG_MAX; simpl; lia | lia
    | unfold LONG_MAX; simpl; lia |].
  exists w', s'. repeat split; assumption.
Defined.

(** X8. Two appends in a row add up: when the length after the first still
    fits an [int] and the length after the second is a [long], after
    [rb_str_cat (h, b1, n1)] and [rb_str_cat (h, b2, n2)] the content is the
    old content, then the [n1] bytes of [b1], then the [n2] bytes of
    [b2]. *)
Theorem rb_str_cat_twice (w : world) (h : VALUE) (s : RString)
    (b1 b2 : memory) (n1 n2 : Z) :
  heap w !! h = Some s →
  wf_string s →
  0 < n1 →
  0 < n2 →
  Z.of_nat (str_len s) + n1 ≤ INT_MAX →
  Z.of_nat (str_len s) + n1 + n2 ≤ LONG_MAX →
  ∃ w' s', (rb_str_cat h (Some b1) n1;; rb_str_cat h (Some b2) n2) w = (Done h, w')
           ∧ heap w' !! h = Some s'
           ∧ content s' = content s ++ read_bytes b1 (Z.to_nat n1)
                            ++ read_bytes b2 (Z.to_nat n2)
           ∧ str_len s' = (str_len s + Z.to_nat n1 + Z.to_nat n2)%nat.
Proof.
  intros Hh Hwf Hn1 Hn2 Hsum Hsum2. pose proof Hwf as (Hle & Hint & Hlong).
  destruct (rb_str_cat_result_wf s b1 (Z.to_nat n1) Hwf) as [Hle1 Hcap1].
  set (s1 := mkRString _ _ _ _ _) in Hle1, Hcap1.
  assert (Hwf1 : wf_string s1).
  { split; [exact Hle1|]. split; [simpl; lia|].
    unfold INT_MAX, LONG_MAX in *. lia. }
  assert (Hc1 : content s1 = content s ++ read_bytes b1 (Z.to_nat n1)).
  { unfold content at 1. simpl. apply take_content_app; [done|].
    by rewrite length_read_bytes. }
  eexists _, _. unfold mbind, cext_bind.
  rewrite (rb_str_cat_run w h s Hh Hwf) by (unfold INT_MAX, LONG_MAX in *; lia).
  fold s1.
  rewrite (rb_str_cat_run _ h s1 (put_string_lookup w h s Hh s1) Hwf1)
    by (simpl; lia).
  rewrite with_heap_insert_twice.
  split; [reflexivity|].
  split; [apply (put_string_lookup w h s Hh)|].
  split; [|done].
  unfold content at 1. cbn [str_len str_storage].
  rewrite take_content_app; [|done|by rewrite length_read_bytes].
  by rewrite Hc1, <- app_assoc.
Qed.

Lemma rb_str_cat_twice_witness :
  ∃ w' s', (rb_str_cat 0%nat (Some (memory_of [x63])) 1;;
            rb_str_cat 0%nat (Some (memory_of [x64; x65])) 2) world_ab
           = (Done 0%nat, w')
           ∧ heap w' !! 0%nat = Some s'
           ∧ content s' = [x61; x62; x63; x64; x65].
Proof.
  destruct (rb_str_cat_twice world_ab 0%nat
              (mkRString [x61; x62] 2 ASCII_8BIT ENC_CODERANGE_UNKNOWN false)
              (memory_of [x63]) (memory_of [x64; x65]) 1 2)
    as (w' & s' & Hrun & Hs' & Hcontent & _);
    [reflexivity | unfold wf_string, capacity, INT_MAX, LONG_MAX; simpl; lia
    | lia | lia | unfold INT_MAX; simpl; lia | unfold LONG_MAX; simpl; lia |].
  exists w', s'. repeat split; assumption.
Defined.

(** X9. Expanding by nothing is [rb_str_modify]: [rb_str_modify_expand
    (h, 0)] skips the resize and does what [rb_str_modify (h)] does, which
    is to clear the coderange. *)
Theorem rb_str_modify_expand_zero (w : world) (h : VALUE) (s : RString) :
  heap w !! h = Some s →
  wf_string s →
  rb_str_modify_expand h 0 w = rb_str_modify h w
  ∧ ∃ w', rb_str_modify h w = (Done tt, w')
          ∧ heap w' !! h = Some (with_coderange ENC_CODERANGE_UNKNOWN s).
Proof.
  intros Hh Hwf. pose proof Hwf as (Hle & Hint & Hlong).
  unfold rb_str_modify. rewrite (ENC_CODERANGE_CLEAR_run w h s Hh).
  split.
  - rewrite (rb_str_modify_expand_run w h s Hh Hwf) by (unfold INT_MAX in *; lia).
    do 3 f_equal. unfold with_coderange. f_equal.
    replace (str_len s + Z.to_nat 0 - capacity s)%nat with 0%nat by lia.
    apply app_nil_r.
  - eexists. split; [reflexivity|]. apply (put_string_lookup w h s Hh).
Qed.

Lemma rb_str_modify_expand_zero_witness :
  rb_str_modify_expand 0%nat 0 world_ab = rb_str_modify 0%nat world_ab.
Proof.
  apply (rb_str_modify_expand_zero world_ab 0%nat
           (mkRString [x61; x62] 2 ASCII_8BIT ENC_CODERANGE_UNKNOWN false));
    [reflexivity | unfold wf_string, capacity, INT_MAX, LONG_MAX; simpl; lia].
Defined.

(** X10. The room that [rb_str_modify_expand (h, k)] reserves can be
    published: after it, [rb_str_set_len (h, length + j)] succeeds for
    every [0 <= j <= k], and the content still begins with the old
    content. *)
Theorem rb_str_modify_expand_then_set_len (w : world) (h : VALUE) (s : RString)
    (k j : Z) :
  heap w !! h = Some s →
  wf_string s →
  0 ≤ j ≤ k →
  k ≤ INT_MAX - Z.of_nat (str_len s) →
  ∃ w' s', (rb_str_modify_expand h k;;
            rb_str_set_len h (Z.of_nat (str_len s) + j)) w = (Done tt, w')
           ∧ heap w' !! h = Some s'
           ∧ str_len s' = (str_len s + Z.to_nat j)%nat
           ∧ take (str_len s) (content s') = content s.
Proof.
  intros Hh Hwf Hj Hk. pose proof Hwf as (Hle & Hint & Hlong).
  eexists _, _. unfold mbind, cext_bind.
  rewrite (rb_str_modify_expand_run w h s Hh Hwf) by lia.
  set (s1 := mkRString _ _ _ _ _).
  assert (Hcap1 : capacity s1 = (capacity s `max` (str_len s + Z.to_nat k))%nat).
  { unfold capacity, s1. simpl. rewrite length_app, length_replicate.
    unfold capacity. lia. }
  rewrite (rb_str_set_len_run _ h s1 (put_string_lookup w h s Hh s1));
    [| unfold INT_MAX, LONG_MAX in *; lia | lia].
  rewrite with_heap_insert_twice.
  split; [reflexivity|].
  split; [apply (put_string_lookup w h s Hh)|].
  split; [simpl; lia|].
  unfold content. simpl. rewrite take_take.
  replace (str_len s `min` Z.to_nat (Z.of_nat (str_len s) + j))%nat
    with (str_len s) by lia.
  rewrite take_app_le; [done|]. unfold capacity in Hle. lia.
Qed.

Lemma rb_str_modify_expand_then_set_len_witness :
  ∃ w' s', (rb_str_modify_expand 0%nat 3;; rb_str_set_len 0%nat (2 + 3)) world_ab
           = (Done tt, w')
           ∧ heap w' !! 0%nat = Some s'
           ∧ str_len s' = 5%nat
           ∧ take 2 (content s') = [x61; x62].
Proof.
  destruct (rb_str_modify_expand_then_set_len world_ab 0%nat
              (mkRString [x61; x62] 2 ASCII_8BIT ENC_CODERANGE_UNKNOWN false) 3 3)
    as (w' & s' & Hrun & Hs' & Hlen & Hcontent);
    [reflexivity | unfold wf_string, capacity, INT_MAX, LONG_MAX; simpl; lia
    | lia | unfold INT_MAX; simpl; lia |].
  exists w', s'. repeat split; assumption.
Defined.

(** X11. Reading back what [rb_str_new] made: for a length that fits an
    [int], [rb_str_len] and [rb_str_capacity] on the new handle both
    return that length, and leave the world as [rb_str_new] left it. *)
Theorem rb_str_new_then_len (w : world) (ptr : cptr) (len : Z) :
  0 ≤ len ≤ INT_MAX →
  ∃ w', (h ← rb_str_new ptr len;
         l ← rb_str_len h;
         c ← rb_str_capacity h;
         mret (l, c)) w = (Done (len, len), w')
        ∧ rb_str_new ptr len w = (Done (length (heap w)), w').
Proof.
  intros Hlen. eexists. unfold mbind, cext_bind.
  rewrite rb_str_new_run by lia.
  set (s0 := mkRString _ _ _ _ _).
  assert (Hcap0 : capacity s0 = Z.to_nat len).
  { unfold capacity, s0. simpl. apply length_bytes_at. }
  pose proof (RSTRING_LEN_run (with_heap (heap w ++ [s0]) w) (length (heap w)) s0
                (lookup_fresh (heap w) s0)) as Hl.
  unfold RSTRING_LEN in Hl. rewrite Hl by (simpl; lia).
  rewrite (rb_str_capacity_run (with_heap (heap w ++ [s0]) w) (length (heap w)) s0
             (lookup_fresh (heap w) s0))
    by (unfold INT_MAX, LONG_MAX in *; lia).
  unfold mret, cext_ret. simpl str_len. rewrite Hcap0, Z2Nat.id by lia.
  by split.
Qed.

Lemma rb_str_new_then_len_witness :
  ∃ w', (h ← rb_str_new None 3;
         l ← rb_str_len h;
         c ← rb_str_capacity h;
         mret (l, c)) world_ab = (Done (3, 3), w').
Proof.
  destruct (rb_str_new_then_len world_ab None 3) as (w' & Hrun & _);
    [unfold INT_MAX; lia|].
  exists w'. exact Hrun.
Defined.

(** ** More constructors *)

Lemma content_new_string (p : cptr) (n : nat) (e : rb_encoding) (c : coderange)
    (t : bool) :
  content (mkRString (bytes_at p n) n e c t) = bytes_at p n.
Proof. unfold content. simpl. apply take_ge. by rewrite length_bytes_at. Qed.

Lemma rb_tainted_str_new_run (w : world) (ptr : cptr) (len : Z) :
  0 ≤ len →
  rb_tainted_str_new ptr len w =
    (Done (length (heap w)),
     with_heap (heap w ++ [mkRString (bytes_at ptr (Z.to_nat len)) (Z.to_nat len)
                             ASCII_8BIT ENC_CODERANGE_UNKNOWN true]) w).
Proof.
  intros Hlen. unfold rb_tainted_str_new, mbind, cext_bind.
  rewrite rb_str_new_run by done. unfold OBJ_TAINT.
  by rewrite modify_string_fresh.
Qed.

Lemma rb_usascii_str_new_run (w : world) (ptr : cptr) (len : Z) :
  0 ≤ len →
  rb_usascii_str_new ptr len w =
    (Done (length (heap w)),
     with_heap (heap w ++ [mkRString (bytes_at ptr (Z.to_nat len)) (Z.to_nat len)
                             US_ASCII ENC_CODERANGE_UNKNOWN false]) w).
Proof.
  intros Hlen. unfold rb_usascii_str_new, mbind, cext_bind.
  rewrite rb_str_new_run by done.
  unfold String_methods.force_encoding, mbind, cext_bind.
  by rewrite modify_string_fresh.
Qed.

Lemma rb_utf8_str_new_run (w : world) (ptr : cptr) (len : Z) :
  0 ≤ len →
  rb_utf8_str_new ptr len w =
    (Done (length (heap w)),
     with_heap (heap w ++ [mkRString (bytes_at ptr (Z.to_nat len)) (Z.to_nat len)
                             UTF_8 ENC_CODERANGE_UNKNOWN false]) w).
Proof.
  intros Hlen. unfold rb_utf8_str_new, rb_enc_str_new, mbind, cext_bind.
  rewrite rb_str_new_run by done. unfold rb_enc_associate.
  by rewrite modify_string_fresh.
Qed.

(** X12. Every constructor of [string.c] that takes a length refuses a
    negative one with the argument error of [rb_str_new], before anything
    is allocated: the world is as it was. *)
Theorem constructors_reject_negative_length (w : world) (ptr : cptr) (len : Z)
    (enc : rb_encoding) :
  len < 0 →
  let refused : outcome VALUE * world :=
    (Raised (Exc rb_eArgError "negative string size (or size too big)" []), w) in
  rb_tainted_str_new ptr len w = refused
  ∧ rb_str_buf_new len w = refused
  ∧ rb_tainted_str_new_with_enc ptr len enc w = refused
  ∧ rb_external_str_new_with_enc ptr len enc w = refused
  ∧ rb_external_str_new ptr len w = refused
  ∧ rb_locale_str_new ptr len w = refused
  ∧ rb_filesystem_str_new ptr len w = refused
  ∧ rb_usascii_str_new ptr len w = refused
  ∧ rb_utf8_str_new ptr len w = refused
  ∧ rb_utf8_str_new_static ptr len w = refused.
Proof.
  intros Hneg refused.
  assert (Hnew := rb_str_new_negative w ptr len Hneg).
  assert (Hnul := rb_str_new_negative w None len Hneg).
  assert (Henc : ∀ e, rb_tainted_str_new_with_enc ptr len e w = refused).
  { intros e. unfold rb_tainted_str_new_with_enc, rb_enc_str_new, mbind, cext_bind.
    by rewrite Hnew. }
  assert (Hext : ∀ e, rb_external_str_new_with_enc ptr len e w = refused).
  { intros e. unfold rb_external_str_new_with_enc, mbind, cext_bind.
    by rewrite Henc. }
  repeat split.
  - unfold rb_tainted_str_new, mbind, cext_bind. by rewrite Hnew.
  - unfold rb_str_buf_new, mbind, cext_bind. by rewrite Hnul.
  - apply Henc.
  - apply Hext.
  - unfold rb_external_str_new, rb_default_external_encoding, mbind, cext_bind.
    simpl. apply Hext.
  - unfold rb_locale_str_new, rb_locale_encoding, mbind, cext_bind.
    simpl. apply Hext.
  - unfold rb_filesystem_str_new, rb_filesystem_encoding, mbind, cext_bind.
    simpl. apply Hext.
  - unfold rb_usascii_str_new, mbind, cext_bind. by rewrite Hnew.
  - unfold rb_utf8_str_new, rb_enc_str_new, mbind, cext_bind. by rewrite Hnew.
  - unfold rb_utf8_str_new_static, rb_utf8_str_new, rb_enc_str_new, mbind, cext_bind.
    by rewrite Hnew.
Qed.

Lemma constructors_reject_negative_length_witness :
  rb_tainted_str_new None (-1) world_ab
  = (Raised (Exc rb_eArgError "negative string size (or size too big)" []), world_ab)
  ∧ rb_external_str_new None (-1) world_ab
    = (Raised (Exc rb_eArgError "negative string size (or size too big)" []), world_ab).
Proof.
  destruct (constructors_reject_negative_length world_ab None (-1) UTF_8)
    as (Htainted & _ & _ & _ & Hext & _); [lia|].
  split; assumption.
Defined.

(** X13. [rb_tainted_str_new] makes the string that [rb_str_new] makes, with
    the taint flag set: for a length [>= 0] the new handle holds the bytes
    (zeros for a null pointer), is tainted, and the handle and every other
    attribute are those of [rb_str_new]. *)
Theorem rb_tainted_str_new_spec (w : world) (ptr : cptr) (len : Z) :
  0 ≤ len →
  ∃ h w0 w' s0, rb_str_new ptr len w = (Done h, w0)
                ∧ rb_tainted_str_new ptr len w = (Done h, w')
                ∧ heap w0 !! h = Some s0
                ∧ str_tainted s0 = false
                ∧ heap w' !! h = Some (with_tainted true s0)
                ∧ content s0 = bytes_at ptr (Z.to_nat len)
                ∧ ∀ h', h' ≠ h → heap w' !! h' = heap w !! h'.
Proof.
  intros Hlen. eexists _, _, _, _.
  split; [by apply rb_str_new_run|].
  split; [by apply rb_tainted_str_new_run|].
  split; [apply lookup_fresh|]. split; [done|].
  split; [apply lookup_fresh|].
  split; [apply content_new_string|].
  intros h' Hne. by apply lookup_fresh_frame.
Qed.

Lemma rb_tainted_str_new_spec_witness :
  ∃ h w0 w' s0, rb_str_new (Some (memory_of [x68; x69])) 2 world_ab = (Done h, w0)
                ∧ rb_tainted_str_new (Some (memory_of [x68; x69])) 2 world_ab
                  = (Done h, w')
                ∧ heap w' !! h = Some (with_tainted true s0)
                ∧ content s0 = [x68; x69].
Proof.
  destruct (rb_tainted_str_new_spec world_ab (Some (memory_of [x68; x69])) 2)
    as (h & w0 & w' & s0 & Hnew & Hrun & _ & _ & Hs' & Hcontent & _); [lia|].
  exists h, w0, w', s0. repeat split; assumption.
Defined.

(** X14. [rb_usascii_str_new] and [rb_utf8_str_new] tag the bytes and do
    not look at them: for a length [>= 0] the new string holds the bytes as
    given, 7-bit or not, tagged US-ASCII resp. UTF-8, untainted and with an
    unknown coderange; [rb_utf8_str_new_static] is [rb_utf8_str_new]. *)
Theorem rb_usascii_utf8_str_new_spec (w : world) (ptr : cptr) (len : Z) :
  0 ≤ len →
  (∃ h w' s', rb_usascii_str_new ptr len w = (Done h, w')
              ∧ heap w !! h = None
              ∧ heap w' !! h = Some s'
              ∧ str_enc s' = US_ASCII
              ∧ content s' = bytes_at ptr (Z.to_nat len)
              ∧ str_coderange s' = ENC_CODERANGE_UNKNOWN
              ∧ str_tainted s' = false)
  ∧ (∃ h w' s', rb_utf8_str_new ptr len w = (Done h, w')
                ∧ rb_utf8_str_new_static ptr len w = (Done h, w')
                ∧ heap w !! h = None
                ∧ heap w' !! h = Some s'
                ∧ str_enc s' = UTF_8
                ∧ content s' = bytes_at ptr (Z.to_nat len)
                ∧ str_coderange s' = ENC_CODERANGE_UNKNOWN
                ∧ str_tainted s' = false).
Proof.
  intros Hlen. split.
  - eexists _, _, _. split; [by apply rb_usascii_str_new_run|].
    split; [by apply lookup_ge_None_2|].
    split; [apply lookup_fresh|].
    repeat split. apply content_new_string.
  - eexists _, _, _. split; [by apply rb_utf8_str_new_run|].
    split; [by apply rb_utf8_str_new_run|].
    split; [by apply lookup_ge_None_2|].
    split; [apply lookup_fresh|].
    repeat split. apply content_new_string.
Qed.

Lemma rb_usascii_utf8_str_new_spec_witness :
  (∃ h w' s', rb_usascii_str_new (Some (memory_of [xff])) 1 world_ab = (Done h, w')
              ∧ heap w' !! h = Some s'
              ∧ str_enc s' = US_ASCII
              ∧ content s' = [xff])
  ∧ (∃ h w' s', rb_utf8_str_new (Some (memory_of [xff])) 1 world_ab = (Done h, w')
                ∧ heap w' !! h = Some s'
                ∧ str_enc s' = UTF_8
                ∧ content s' = [xff]).
Proof.
  destruct (rb_usascii_utf8_str_new_spec world_ab (Some (memory_of [xff])) 1)
    as [Hus Hutf]; [lia|].
  split.
  - destruct Hus as (h & w' & s' & Hrun & _ & Hs' & Henc & Hcontent & _).
    exists h, w', s'. repeat split; assumption.
  - destruct Hutf as (h & w' & s' & Hrun & _ & _ & Hs' & Henc & Hcontent & _).
    exists h, w', s'. repeat split; assumption.
Defined.

(** ** External strings and export *)

(** X15. Whatever branch [rb_external_str_new_with_enc] takes, when it
    returns, the string it has ingested (the first new object) is tainted
    and holds the bytes as given, tagged with the external encoding or
    with ASCII-8BIT; the handle returned is that string or, after a
    transcoding, the object made next. *)
Theorem rb_external_str_new_with_enc_taints (w w' : world) (ptr : cptr) (len : Z)
    (eenc : rb_encoding) (h : VALUE) :
  0 ≤ len →
  rb_external_str_new_with_enc ptr len eenc w = (Done h, w') →
  ∃ s0, heap w' !! length (heap w) = Some s0
        ∧ str_tainted s0 = true
        ∧ content s0 = bytes_at ptr (Z.to_nat len)
        ∧ (str_enc s0 = eenc ∨ str_enc s0 = ASCII_8BIT)
        ∧ (h = length (heap w) ∨ h = S (length (heap w))).
Proof.
  intros Hlen Hrun.
  set (bs := bytes_at ptr (Z.to_nat len)) in *.
  set (s0 := mkRString bs (Z.to_nat len) eenc ENC_CODERANGE_UNKNOWN true).
  set (w1 := with_heap (heap w ++ [s0]) w).
  assert (Hnew : rb_external_str_new_with_enc ptr len eenc w
                 = rb_external_str_with_enc (length (heap w)) eenc w1).
  { unfold rb_external_str_new_with_enc, mbind, cext_bind.
    by rewrite rb_tainted_str_new_with_enc_run. }
  rewrite Hnew in Hrun. clear Hnew.
  assert (Hh : heap w1 !! length (heap w) = Some s0) by apply lookup_fresh.
  assert (Hcontent : content s0 = bs) by apply content_new_string.
  assert (Hins : ∀ s', with_heap (<[length (heap w) := s']> (heap w1)) w1
                       = with_heap (heap w ++ [s']) w).
  { intros s'. unfold w1. cbn [heap with_heap]. by rewrite insert_fresh. }
  destruct (decide (eenc = US_ASCII ∧ forallb is_7bit bs = false)) as [[Hus H7]|Hno].
  - rewrite (rb_external_str_with_enc_binary w1 _ s0 eenc Hh eq_refl eq_refl Hus)
      in Hrun by (by rewrite Hcontent).
    rewrite Hins in Hrun. injection Hrun as <- <-.
    eexists. split; [apply lookup_fresh|].
    split; [done|]. split; [exact Hcontent|]. split; [by right|by left].
  - assert (Hcase : eenc ≠ US_ASCII ∨ forallb is_7bit (content s0) = true).
    { rewrite Hcontent. destruct (decide (eenc = US_ASCII)) as [Hus|?]; [|by left].
      right. destruct (forallb is_7bit bs); [done|]. by destruct Hno. }
    rewrite (rb_external_str_with_enc_associate w1 _ s0 eenc Hh eq_refl eq_refl Hcase)
      in Hrun.
    rewrite Hins in Hrun.
    change (default_internal w1) with (default_internal w) in Hrun.
    set (s1 := mkRString (str_storage s0) (str_len s0) eenc ENC_CODERANGE_UNKNOWN
                 (str_tainted s0)) in Hrun.
    destruct (default_internal w) as [to|]; [destruct (decide (eenc = to)) as [<-|Hne]|].
    + rewrite rb_str_conv_enc_same in Hrun. injection Hrun as <- <-.
      eexists. split; [apply lookup_fresh|].
      split; [done|]. split; [exact Hcontent|]. split; by left.
    + unfold rb_str_conv_enc, rb_str_conv_enc_opts, mbind, cext_bind in Hrun.
      unfold mret at 1, cext_ret at 1 in Hrun.
      rewrite decide_False in Hrun by done.
      unfold RUBY_CEXT.rb_str_conv_enc_opts, mbind, cext_bind in Hrun.
      rewrite get_string_fresh in Hrun.
      unfold get_world in Hrun.
      destruct (transcode _ eenc to 0 (content s1)) as [bs'|]; [|discriminate Hrun].
      unfold alloc_string in Hrun. cbn [heap with_heap] in Hrun.
      injection Hrun as <- <-. cbn [heap with_heap].
      eexists. split.
      { rewrite lookup_app_l by (rewrite length_app; simpl; lia). apply lookup_fresh. }
      split; [done|]. split; [exact Hcontent|]. split; [by left|].
      right. rewrite length_app. simpl. lia.
    + rewrite rb_str_conv_enc_unset in Hrun. injection Hrun as <- <-.
      eexists. split; [apply lookup_fresh|].
      split; [done|]. split; [exact Hcontent|]. split; by left.
Qed.

Lemma rb_external_str_new_with_enc_taints_witness :
  ∃ s0, heap (with_heap [mkRString [xff] 1 ASCII_8BIT ENC_CODERANGE_UNKNOWN true]
                (world0 US_ASCII None)) !! 0%nat = Some s0
        ∧ str_tainted s0 = true
        ∧ content s0 = [xff].
Proof.
  destruct (rb_external_str_new_with_enc_taints (world0 US_ASCII None)
              (with_heap [mkRString [xff] 1 ASCII_8BIT ENC_CODERANGE_UNKNOWN true]
                 (world0 US_ASCII None))
              (Some (memory_of [xff])) 1 US_ASCII 0%nat)
    as (s0 & Hs0 & Htaint & Hcontent & _); [lia | reflexivity |].
  exists s0. repeat split; assumption.
Defined.

(** X16. A null source encoding stands for the string's own: for every
    target, flags and options, [rb_str_conv_enc_opts (h, NULL, to, ...)] is
    [rb_str_conv_enc_opts (h, rb_enc_get (h), to, ...)]. *)
Theorem rb_str_conv_enc_opts_null_from (w : world) (h : VALUE) (s : RString)
    (to : option rb_encoding) (ecflags : Z) (ecopts : option VALUE) :
  heap w !! h = Some s →
  rb_str_conv_enc_opts h None to ecflags ecopts w
  = rb_str_conv_enc_opts h (Some (str_enc s)) to ecflags ecopts w.
Proof.
  intros Hh. destruct to as [to|]; [|done].
  unfold rb_str_conv_enc_opts, rb_enc_get, mbind, cext_bind.
  by rewrite (get_string_run w h s Hh).
Qed.

Lemma rb_str_conv_enc_opts_null_from_witness :
  rb_str_conv_enc_opts 0%nat None (Some UTF_8) 0 None world_ab
  = rb_str_conv_enc_opts 0%nat (Some ASCII_8BIT) (Some UTF_8) 0 None world_ab.
Proof.
  apply (rb_str_conv_enc_opts_null_from world_ab 0%nat
           (mkRString [x61; x62] 2 ASCII_8BIT ENC_CODERANGE_UNKNOWN false)).
  reflexivity.
Defined.

(** X17. Exporting a string that is already in the target encoding does
    nothing: [rb_str_export] on a string in the default external encoding,
    [rb_str_export_locale] on one in the locale encoding and
    [rb_str_export_to_enc] with the string's own encoding or with a null
    encoding return the handle itself and leave the world as it was. *)
Theorem rb_str_export_identity (w : world) (h : VALUE) (s : RString) :
  heap w !! h = Some s →
  (str_enc s = default_external w → rb_str_export h w = (Done h, w))
  ∧ (str_enc s = locale_encoding w → rb_str_export_locale h w = (Done h, w))
  ∧ rb_str_export_to_enc h (Some (str_enc s)) w = (Done h, w)
  ∧ rb_str_export_to_enc h None w = (Done h, w).
Proof.
  intros Hh.
  assert (Hget : STR_ENC_GET h w = (Done (str_enc s), w)).
  { unfold STR_ENC_GET, rb_enc_get, mbind, cext_bind.
    by rewrite (get_string_run w h s Hh). }
  repeat split.
  - intros Henc. unfold rb_str_export, mbind, cext_bind. rewrite Hget.
    unfold rb_default_external_encoding, mbind, cext_bind. simpl.
    rewrite <- Henc. apply rb_str_conv_enc_same.
  - intros Henc. unfold rb_str_export_locale, mbind, cext_bind. rewrite Hget.
    unfold rb_locale_encoding, mbind, cext_bind. simpl.
    rewrite <- Henc. apply rb_str_conv_enc_same.
  - unfold rb_str_export_to_enc, mbind, cext_bind. rewrite Hget.
    apply rb_str_conv_enc_same.
  - unfold rb_str_export_to_enc, mbind, cext_bind. rewrite Hget.
    apply rb_str_conv_enc_unset.
Qed.

Lemma rb_str_export_identity_witness :
  rb_str_export_to_enc 0%nat (Some ASCII_8BIT) world_ab = (Done 0%nat, world_ab)
  ∧ rb_str_export_to_enc 0%nat None world_ab = (Done 0%nat, world_ab).
Proof.
  destruct (rb_str_export_identity world_ab 0%nat
              (mkRString [x61; x62] 2 ASCII_8BIT ENC_CODERANGE_UNKNOWN false))
    as (_ & _ & Hown & Hnull); [reflexivity|].
  split; assumption.
Defined.

(** X18. Ingest, then export: when no internal encoding is configured, a
    string made by [rb_external_str_new] that kept the external encoding
    (the encoding is not US-ASCII, or the bytes are 7-bit) is handed back
    by [rb_str_export] as it is: the same handle, in the same world, with
    the bytes that were ingested. *)
Theorem rb_external_str_new_then_export (w : world) (ptr : cptr) (len : Z) :
  0 ≤ len →
  default_internal w = None →
  default_external w ≠ US_ASCII
  ∨ forallb is_7bit (bytes_at ptr (Z.to_nat len)) = true →
  ∃ h w', rb_external_str_new ptr len w = (Done h, w')
          ∧ rb_str_export h w' = (Done h, w')
          ∧ content_of w' h = Some (bytes_at ptr (Z.to_nat len))
          ∧ encoding_of w' h = Some (default_external w).
Proof.
  intros Hlen Hint Hcase.
  set (eenc := default_external w) in *.
  set (bs := bytes_at ptr (Z.to_nat len)) in *.
  set (s0 := mkRString bs (Z.to_nat len) eenc ENC_CODERANGE_UNKNOWN true).
  set (w1 := with_heap (heap w ++ [s0]) w).
  assert (Hh : heap w1 !! length (heap w) = Some s0) by apply lookup_fresh.
  assert (Hcontent : content s0 = bs) by apply content_new_string.
  assert (Hnew : rb_external_str_new ptr len w
                 = (Done (length (heap w)), with_heap (heap w ++ [s0]) w)).
  { unfold rb_external_str_new, rb_default_external_encoding, mbind, cext_bind.
    simpl. fold eenc.
    unfold rb_external_str_new_with_enc, mbind, cext_bind.
    rewrite rb_tainted_str_new_with_enc_run by done. fold bs s0 w1.
    rewrite (rb_external_str_with_enc_associate w1 _ s0 eenc Hh eq_refl eq_refl)
      by (by rewrite Hcontent).
    change (default_internal w1) with (default_internal w). rewrite Hint.
    rewrite rb_str_conv_enc_unset. unfold w1. cbn [heap with_heap].
    by rewrite insert_fresh. }
  eexists _, _. split; [exact Hnew|].
  split.
  - unfold rb_str_export, STR_ENC_GET, rb_enc_get, mbind, cext_bind.
    rewrite get_string_fresh.
    unfold rb_default_external_encoding, mbind, cext_bind. simpl.
    fold eenc. apply rb_str_conv_enc_same.
  - unfold content_of, encoding_of. cbn [heap with_heap].
    rewrite lookup_fresh. simpl. split; [|done]. f_equal. exact Hcontent.
Qed.

Lemma rb_external_str_new_then_export_witness :
  ∃ h w', rb_external_str_new (Some (memory_of [xff])) 1 (world0 UTF_8 None)
          = (Done h, w')
          ∧ rb_str_export h w' = (Done h, w')
          ∧ content_of w' h = Some [xff].
Proof.
  destruct (rb_external_str_new_then_export (world0 UTF_8 None)
              (Some (memory_of [xff])) 1)
    as (h & w' & Hnew & Hexport & Hcontent & _);
    [lia | reflexivity | left; discriminate |].
  exists h, w'. repeat split; assumption.
Defined.

(** ** Dropping bytes *)

(** X19. [rb_str_drop_bytes (h, n)] with [n >= 0] returns [h] with the
    first [n] bytes of its content removed and its encoding kept; an [n]
    beyond the length is clamped to the length, so that the string becomes
    empty and nothing is raised.  The slice it makes on the way is a new
    object; no string that existed changes but [h]. *)
Theorem rb_str_drop_bytes_spec (w : world) (h : VALUE) (s : RString) (len : Z) :
  heap w !! h = Some s →
  wf_string s →
  0 ≤ len →
  ∃ w' s', rb_str_drop_bytes h len w = (Done h, w')
           ∧ heap w' !! h = Some s'
           ∧ content s' = drop (Z.to_nat len) (content s)
           ∧ str_len s' = (str_len s - Z.to_nat len)%nat
           ∧ str_enc s' = str_enc s
           ∧ (Z.of_nat (str_len s) ≤ len → content s' = [])
           ∧ ∀ h', h' ≠ h → (h' < length (heap w))%nat →
                   heap w' !! h' = heap w !! h'.
Proof.
  intros Hh Hwf Hlen. pose proof Hwf as (Hle & Hint & Hlong).
  pose proof (lookup_lt_Some _ _ _ Hh) as Hlt.
  pose proof (length_content s Hle) as Hlc.
  set (olen := Z.of_nat (str_len s)).
  set (len' := if len >? olen then olen else len).
  assert (Hlen' : len' = Z.of_nat (str_len s `min` Z.to_nat len)).
  { unfold len', olen. destruct (Z.gtb_spec len (Z.of_nat (str_len s))); lia. }
  set (bs := drop (Z.to_nat len) (content s)).
  assert (Hbs : take (Z.to_nat (olen - len')) (drop (Z.to_nat len') (content s)) = bs).
  { rewrite take_ge by (rewrite length_drop, Hlc; unfold olen; lia).
    unfold bs. destruct (decide (Z.to_nat len ≤ str_len s)%nat) as [?|?].
    - f_equal. lia.
    - rewrite !drop_ge; [done | rewrite Hlc; lia | rewrite Hlc; lia]. }
  assert (Hlbs : length bs = (str_len s - Z.to_nat len)%nat).
  { unfold bs. by rewrite length_drop, Hlc. }
  set (sub := mkRString bs (length bs) (str_enc s) ENC_CODERANGE_UNKNOWN (str_tainted s)).
  assert (Hcsub : content sub = bs).
  { unfold content, sub. simpl. by apply take_ge. }
  assert (Hrun : rb_str_drop_bytes h len w =
                 (Done h,
                  with_heap (<[h := mkRString bs (length bs) (str_enc s)
                                     ENC_CODERANGE_UNKNOWN
                                     (str_tainted s || str_tainted s)]>
                               (heap w ++ [sub])) w)).
  { unfold rb_str_drop_bytes, mbind, cext_bind.
    rewrite (RSTRING_LEN_run w h s Hh) by done. fold olen len'.
    unfold rb_str_subseq, String_methods.byteslice, mbind, cext_bind.
    rewrite (get_string_run w h s Hh). fold olen.
    assert (H1 : (len' <? 0) = false) by (apply Z.ltb_ge; lia).
    assert (H2 : (olen - len' <? 0) = false) by (apply Z.ltb_ge; unfold olen; lia).
    assert (H3 : (len' >? olen) = false)
      by (rewrite Z.gtb_ltb; apply Z.ltb_ge; unfold olen; lia).
    rewrite H1. cbv beta iota zeta. rewrite H1, H2, H3. cbn [orb].
    rewrite Hbs. fold sub.
    unfold alloc_string, mret, cext_ret.
    unfold rb_str_replace, String_methods.replace, mbind, cext_bind.
    unfold get_string at 1. cbn [heap with_heap].
    rewrite (lookup_app_l_Some _ _ _ _ Hh).
    unfold get_string. cbn [heap with_heap]. rewrite lookup_fresh.
    unfold put_string. cbn [heap with_heap]. rewrite Hcsub.
    reflexivity. }
  eexists _, _. split; [exact Hrun|].
  cbn [heap with_heap].
  split.
  { apply list_lookup_insert_eq. rewrite length_app. lia. }
  split; [unfold content; simpl; by apply take_ge|].
  split; [exact Hlbs|]. split; [done|].
  split.
  { intros Hall. unfold content. simpl. rewrite take_ge by done.
    unfold bs. apply drop_ge. rewrite Hlc. lia. }
  intros h' Hne Hlt'.
  rewrite list_lookup_insert_ne by done. by apply lookup_app_l.
Qed.

Lemma rb_str_drop_bytes_spec_witness :
  (∃ w' s', rb_str_drop_bytes 0%nat 1 world_ab = (Done 0%nat, w')
            ∧ heap w' !! 0%nat = Some s'
            ∧ content s' = [x62])
  ∧ (∃ w' s', rb_str_drop_bytes 0%nat 7 world_ab = (Done 0%nat, w')
              ∧ heap w' !! 0%nat = Some s'
              ∧ content s' = []).
Proof.
  pose proof (λ n, rb_str_drop_bytes_spec world_ab 0%nat
                (mkRString [x61; x62] 2 ASCII_8BIT ENC_CODERANGE_UNKNOWN false) n
                eq_refl) as Hspec.
  split.
  - destruct (Hspec 1) as (w' & s' & Hrun & Hs' & Hcontent & _);
      [unfold wf_string, capacity, INT_MAX, LONG_MAX; simpl; lia | lia |].
    exists w', s'. repeat split; assumption.
  - destruct (Hspec 7) as (w' & s' & Hrun & Hs' & _ & _ & _ & Hempty & _);
      [unfold wf_string, capacity, INT_MAX, LONG_MAX; simpl; lia | lia |].
    exists w', s'. repeat split; [assumption | assumption |].
    apply Hempty. simpl. lia.
Defined.

(** ** Set-length, continued *)

(** X20. Setting the length a string has changes nothing:
    [rb_str_set_len (h, rb_str_len (h))] returns in the world as it was. *)
Theorem rb_str_set_len_current (w : world) (h : VALUE) (s : RString) :
  heap w !! h = Some s →
  wf_string s →
  (len ← rb_str_len h; rb_str_set_len h len) w = (Done tt, w).
Proof.
  intros Hh (Hle & Hint & Hlong). unfold mbind at 1, cext_bind at 1.
  pose proof (RSTRING_LEN_run w h s Hh Hint) as Hl. unfold RSTRING_LEN in Hl.
  rewrite Hl. rewrite (rb_str_set_len_run w h s Hh) by lia.
  f_equal. rewrite Nat2Z.id.
  replace (with_len (str_len s) s) with s by (by destruct s).
  rewrite list_insert_id by done. by destruct w.
Qed.

Lemma rb_str_set_len_current_witness :
  (len ← rb_str_len 0%nat; rb_str_set_len 0%nat len) world_ab = (Done tt, world_ab).
Proof.
  apply (rb_str_set_len_current world_ab 0%nat
           (mkRString [x61; x62] 2 ASCII_8BIT ENC_CODERANGE_UNKNOWN false));
    [reflexivity | unfold wf_string, capacity, INT_MAX, LONG_MAX; simpl; lia].
Defined.

(** ** C strings, continued *)

(** X21. The [_cstr] variants are the sized functions at [strlen]: given
    enough fuel to reach the first NUL of the C string, at offset [n], each
    of them is its sibling called with the pointer and the length [n], so
    that neither the NUL nor anything after it gets into a string. *)
Theorem cstr_variants_stop_at_nul (fuel : nat) (ptr : memory) (n : nat) (h : VALUE) :
  first_nul ptr n →
  (n < fuel)%nat →
  rb_str_new_cstr fuel ptr = Some (rb_str_new (Some ptr) (Z.of_nat n))
  ∧ rb_str_buf_new_cstr fuel ptr = Some (rb_str_new (Some ptr) (Z.of_nat n))
  ∧ rb_tainted_str_new_cstr fuel ptr
    = Some (rb_tainted_str_new (Some ptr) (Z.of_nat n))
  ∧ rb_utf8_str_new_cstr fuel ptr = Some (rb_utf8_str_new (Some ptr) (Z.of_nat n))
  ∧ rb_external_str_new_cstr fuel ptr
    = Some (rb_external_str_new (Some ptr) (Z.of_nat n))
  ∧ rb_str_cat_cstr fuel h ptr = Some (rb_str_cat h (Some ptr) (Z.of_nat n)).
Proof.
  intros Hnul Hfuel. pose proof (strlen_first_nul fuel ptr n Hnul Hfuel) as Hlen.
  unfold rb_tainted_str_new_cstr, rb_str_buf_new_cstr, rb_str_new_cstr,
    rb_utf8_str_new_cstr, rb_external_str_new_cstr, rb_str_cat_cstr.
  rewrite Hlen. by repeat split.
Qed.

Lemma cstr_variants_stop_at_nul_witness :
  rb_utf8_str_new_cstr 8 (memory_of [x68; x69; x00; x7a])
  = Some (rb_utf8_str_new (Some (memory_of [x68; x69; x00; x7a])) 2)
  ∧ rb_external_str_new_cstr 8 (memory_of [x68; x69; x00; x7a])
    = Some (rb_external_str_new (Some (memory_of [x68; x69; x00; x7a])) 2).
Proof.
  destruct (cstr_variants_stop_at_nul 8 (memory_of [x68; x69; x00; x7a]) 2 0%nat)
    as (_ & _ & _ & Hutf & Hext & _).
  - split; [reflexivity|].
    intros i Hi. destruct i as [|[|i]]; [discriminate | discriminate | lia].
  - lia.
  - split; assumption.
Defined.
